(** * Belief propagation on an Ising chain: [stats/bp.py] and [stats/common.py]

    A shallow embedding of the Python sources and the properties of the
    marginals they compute.

    - [Py]: the pieces of the Python runtime the sources rely on: exceptions,
      list slicing with optional bounds and a step, [zip], [len].
    - [Float64]: the arithmetic the sources use on floats ([+], [-], [*], [/],
      [np.exp], [float(int)], the literals [1.] and [0.5]), as an interface.
      The embedded functions are written once, for every implementation of it.
    - [Bp], [Common]: the functions of [stats/bp.py] and [stats/common.py].
    - [Exact]: floats as IEEE 754 values in exact arithmetic.  A finite value
      is a real number and the operations on finite values are those of the
      reals (no rounding, no overflow, no underflow); the two infinities and
      NaN behave as IEEE 754 prescribes.
    - [Derived], [Spec]: the loop of the propagator as a recursion on its
      pairs, and the formulas of the specification in its own words.
    - [Parts], [FloatSpec], [Enclosure]: the numerators and denominators of
      the two normalisations, the formulas of the specification on floats,
      and what a quotient by an unchecked denominator can be.
    - [PyFacts], [BpFacts], [ExactFacts], [PartsFacts], [RobustFacts],
      [CommonFacts]: the lemmas.  [RobustFacts] holds for every argument,
      the infinities and NaN included.
    - [Properties]: the properties of the specification, one theorem each.
    - [Extras]: further properties of the code. *)

From Stdlib Require Import Reals Lra Psatz ZArith String Bool List Lia.
Import ListNotations.

Set Implicit Arguments.

(* ================================================================== *)
(** * The Python runtime *)

Module Py.

(** The exceptions these sources can raise.  [ValueError] is the one the
    code raises itself; [UnboundLocalError] is what Python raises when a
    local name is read before any branch has bound it. *)
Inductive exn : Type :=
| ValueError (msg : string)
| UnboundLocalError (name : string).

Inductive result (A : Type) : Type :=
| Ok (a : A)
| Raise (e : exn).

Arguments Ok {A} a.
Arguments Raise {A} e.

Definition bind {A B : Type} (r : result A) (k : A -> result B) : result B :=
  match r with
  | Ok a => k a
  | Raise e => Raise e
  end.

Definition raises {A : Type} (r : result A) : Prop :=
  exists e, r = Raise e.

(** [len(l)], a Python int. *)
Definition len {A : Type} (l : list A) : Z := Z.of_nat (List.length l).

(** ** Slicing: [l[start:stop:step]]

    The bounds are adjusted as CPython does ([PySlice_AdjustIndices]): a
    negative bound counts from the end, and a bound out of range is
    clamped.  [step] is not zero in these sources. *)

Local Open Scope Z_scope.

Definition clamp (length step i : Z) : Z :=
  if i <? 0 then
    let i' := i + length in
    if i' <? 0 then (if step <? 0 then -1 else 0) else i'
  else if length <=? i then (if step <? 0 then length - 1 else length)
  else i.

Definition slice_indices (length : Z) (start stop : option Z) (step : Z)
  : list Z :=
  let start' :=
    match start with
    | None => if step <? 0 then length - 1 else 0
    | Some i => clamp length step i
    end in
  let stop' :=
    match stop with
    | None => if step <? 0 then -1 else length
    | Some i => clamp length step i
    end in
  let n :=
    if step <? 0
    then (if stop' <? start' then (start' - stop' - 1) / (- step) + 1 else 0)
    else (if start' <? stop' then (stop' - start' - 1) / step + 1 else 0) in
  map (fun k => start' + Z.of_nat k * step) (seq 0 (Z.to_nat n)).

Fixpoint getitems {A : Type} (l : list A) (idx : list Z) : list A :=
  match idx with
  | [] => []
  | i :: idx' =>
      match nth_error l (Z.to_nat i) with
      | Some x => x :: getitems l idx'
      | None => getitems l idx'
      end
  end.

Definition slice {A : Type} (l : list A) (start stop : option Z) (step : Z)
  : list A :=
  getitems l (slice_indices (len l) start stop step).

(** [zip(a, b)] and [zip(a, b, c)]: as long as the shortest argument. *)
Definition zip {A B : Type} (a : list A) (b : list B) : list (A * B) :=
  combine a b.

Fixpoint zip3 {A B C : Type} (a : list A) (b : list B) (c : list C)
  : list (A * B * C) :=
  match a, b, c with
  | x :: a', y :: b', z :: c' => (x, y, z) :: zip3 a' b' c'
  | _, _, _ => []
  end.

End Py.

Import Py.

Declare Scope py_scope.
Delimit Scope py_scope with py.
Notation "x <- e ;; k" := (bind e (fun x => k))
  (at level 61, e at next level, right associativity) : py_scope.
Notation "' p <- e ;; k" := (bind e (fun p => k))
  (at level 61, p pattern, e at next level, right associativity) : py_scope.

(* ================================================================== *)
(** * Float arithmetic, as an interface *)

(** What the sources do with floats.  [of_int] is [float(n)] and the
    conversion Python applies when an int meets a float in a product;
    [half] is the literal [0.5]. *)
Class Float64 : Type := {
  float : Type;
  fadd : float -> float -> float;
  fsub : float -> float -> float;
  fmul : float -> float -> float;
  fdiv : float -> float -> float;
  np_exp : float -> float;
  of_int : Z -> float;
  half : float
}.

Declare Scope float_scope.
Delimit Scope float_scope with float.
Infix "+" := fadd : float_scope.
Infix "-" := fsub : float_scope.
Infix "*" := fmul : float_scope.
Infix "/" := fdiv : float_scope.

(* ================================================================== *)
(** * [stats/bp.py] *)

Module Bp.
Section WithFloat.

Context {F : Float64}.
Local Open Scope Z_scope.
Local Open Scope float_scope.
Local Open Scope py_scope.

Definition SU : Z := 1.
Definition SD : Z := (-1).

(** [np.exp(beta*J*float(x_1)*float(x_2))] *)
Definition _phi_interaction (x_1 x_2 : Z) (J beta : float) : float :=
  np_exp (beta * J * of_int x_1 * of_int x_2).

(** [np.exp(beta*h*x_1)] *)
Definition _phi_field (x_1 : Z) (h beta : float) : float :=
  np_exp (beta * h * of_int x_1).

Definition _propagate_message (beta jj hh mu_up : float) : float :=
  let tmp_up :=
    _phi_interaction SU SU jj beta * _phi_field SU hh beta * mu_up
    + _phi_interaction SU SD jj beta * _phi_field SD hh beta
      * (of_int 1 - mu_up) in
  let tmp_dw :=
    _phi_interaction SD SU jj beta * _phi_field SU hh beta * mu_up
    + _phi_interaction SD SD jj beta * _phi_field SD hh beta
      * (of_int 1 - mu_up) in
  tmp_up / (tmp_up + tmp_dw).

(** The body of [for jj, hh in j_h_list], with the two variables it
    updates: [messages_output] and [message_previous]. *)
Fixpoint chain_loop (beta : float) (j_h_list : list (float * float))
    (messages_output : list float) (message_previous : float)
  : list float :=
  match j_h_list with
  | [] => messages_output
  | (jj, hh) :: rest =>
      let message_next := _propagate_message beta jj hh message_previous in
      chain_loop beta rest (messages_output ++ [message_next]) message_next
  end.

Definition _propagate_messages_chain (beta : float)
    (coupling field : list float) (message_start : float)
    (direction : string) : result (list float) :=
  if negb (len coupling =? len field - 1)%Z then
    Raise (ValueError "Length of coupling and of input non consistent")
  else if negb (existsb (String.eqb direction) ["left"; "right"]%string) then
    Raise (ValueError "wrong direction: must be left or rigth")
  else
    let messages_output := [message_start] in
    let message_previous := message_start in
    j_h_list <-
      (if String.eqb direction "left" then
         Ok (zip coupling (slice field None (Some (-1)%Z) 1))
       else if String.eqb direction "right" then
         Ok (zip (slice coupling None None (-1))
                 (slice field (Some (-2)%Z) None (-1)))
       else Raise (UnboundLocalError "j_h_list")) ;;
    let messages_output :=
      chain_loop beta j_h_list messages_output message_previous in
    Ok (if String.eqb direction "right" then rev messages_output
        else messages_output).

(** The two lists of unnormalised marginals, [mu_up_non] and [mu_dw_non]
    (lines 129-148 of [marginals], after the length check). *)
Definition marginals_non (beta : float) (coupling field : list float)
  : result (list float * list float) :=
  let message_start := half in
  mu_left <- _propagate_messages_chain beta coupling field message_start "left" ;;
  mu_right <- _propagate_messages_chain beta coupling field message_start "right" ;;
  let lf_up := map (fun hh => np_exp (beta * hh * of_int SU)) field in
  let lf_dw := map (fun hh => np_exp (beta * hh * of_int SD)) field in
  let mu_up_non :=
    map (fun '(ml, lf, mr) => ml * lf * mr) (zip3 mu_left lf_up mu_right) in
  let mu_dw_non :=
    map (fun '(ml, lf, mr) => (of_int 1 - ml) * lf * (of_int 1 - mr))
        (zip3 mu_left lf_dw mu_right) in
  Ok (mu_up_non, mu_dw_non).

Definition marginals (beta : float) (coupling field : list float)
  : result (list float) :=
  if negb (len coupling =? len field - 1)%Z then
    Raise (ValueError "Length of coupling and of input non consistent")
  else
    '(mu_up_non, mu_dw_non) <- marginals_non beta coupling field ;;
    Ok (map (fun '(mu_up, mu_dw) => mu_up / (mu_up + mu_dw))
            (zip mu_up_non mu_dw_non)).

End WithFloat.
End Bp.

(* ================================================================== *)
(** * [stats/common.py] *)

Module Common.
Section WithFloat.

Context {F : Float64}.
Local Open Scope Z_scope.
Local Open Scope py_scope.

(** [np.cov(x, y)[0, 1]] belongs to NumPy, not to these sources: it is a
    parameter here, and it may raise. *)
Variable np_cov_0_1 : list float -> list float -> result float.

(** The body of [for i in range(1, n_lags+1)], with the list [acv] it
    appends to. *)
Fixpoint acvar_loop (sample : list float) (lags : list Z) (acv : list float)
  : result (list float) :=
  match lags with
  | [] => Ok acv
  | i :: rest =>
      c <- np_cov_0_1 (slice sample (Some i) None 1)
                      (slice sample None (Some (- i)) 1) ;;
      acvar_loop sample rest (acv ++ [c])
  end.

Definition acvar (sample : list float) (n_lags : Z) : result (list float) :=
  let acv := [] in
  c <- np_cov_0_1 sample sample ;;
  let acv := acv ++ [c] in
  acvar_loop sample (map Z.of_nat (seq 1 (Z.to_nat n_lags))) acv.

End WithFloat.
End Common.

(* ================================================================== *)
(** * Floats in exact arithmetic *)

Module Exact.

Local Open Scope R_scope.

(** An IEEE 754 value: a finite number, an infinity with its sign
    ([Inf true] is minus infinity), or NaN.  Zeros carry no sign: a zero
    divisor counts as [+0]. *)
Inductive ieee : Type :=
| Fin (r : R)
| Inf (neg : bool)
| NaN.

Definition opp (x : ieee) : ieee :=
  match x with
  | Fin r => Fin (- r)
  | Inf s => Inf (negb s)
  | NaN => NaN
  end.

Definition add (x y : ieee) : ieee :=
  match x, y with
  | NaN, _ | _, NaN => NaN
  | Fin a, Fin b => Fin (a + b)
  | Fin _, Inf s | Inf s, Fin _ => Inf s
  | Inf s, Inf t => if Bool.eqb s t then Inf s else NaN
  end.

Definition sub (x y : ieee) : ieee := add x (opp y).

(** The product of the finite [a] and an infinity of sign [s]; also the
    quotient of [a] by a zero of sign [s]. *)
Definition scale_inf (a : R) (s : bool) : ieee :=
  match total_order_T a 0 with
  | inleft (left _) => Inf (negb s)
  | inleft (right _) => NaN
  | inright _ => Inf s
  end.

Definition mul (x y : ieee) : ieee :=
  match x, y with
  | NaN, _ | _, NaN => NaN
  | Fin a, Fin b => Fin (a * b)
  | Fin a, Inf s | Inf s, Fin a => scale_inf a s
  | Inf s, Inf t => Inf (xorb s t)
  end.

Definition div (x y : ieee) : ieee :=
  match x, y with
  | NaN, _ | _, NaN => NaN
  | Fin a, Fin b => if Req_EM_T b 0 then scale_inf a false else Fin (a / b)
  | Fin _, Inf _ => Fin 0
  | Inf s, Fin b => if Rlt_dec b 0 then Inf (negb s) else Inf s
  | Inf _, Inf _ => NaN
  end.

Definition exp (x : ieee) : ieee :=
  match x with
  | Fin r => Fin (Rtrigo_def.exp r)
  | Inf false => Inf false
  | Inf true => Fin 0
  | NaN => NaN
  end.

Definition is_finite (x : ieee) : Prop := exists r, x = Fin r.

(** A finite value strictly between 0 and 1. *)
Definition is_message (x : ieee) : Prop := exists r, x = Fin r /\ 0 < r < 1.

Definition finite_pair (p : ieee * ieee) : Prop :=
  is_finite (fst p) /\ is_finite (snd p).

(** A pair whose coupling or whose field is zero. *)
Definition neutral_pair (p : ieee * ieee) : Prop :=
  exists J h, p = (Fin J, Fin h) /\ (J = 0 \/ h = 0).



#[export] Instance float64 : Float64 := {|
  float := ieee;
  fadd := add;
  fsub := sub;
  fmul := mul;
  fdiv := div;
  np_exp := exp;
  of_int := fun n => Fin (IZR n);
  half := Fin (1 / 2)
|}.

End Exact.

(* ================================================================== *)
(** * Derived forms of the embedded code *)

Module Derived.
Section WithFloat.

Context {F : Float64}.
Local Open Scope float_scope.

(** The messages the loop of [_propagate_messages_chain] appends: each is
    the update of the one before it. *)
Fixpoint messages_from (beta : float) (j_h_list : list (float * float))
    (message_previous : float) : list float :=
  match j_h_list with
  | [] => []
  | (jj, hh) :: rest =>
      let message_next :=
        Bp._propagate_message beta jj hh message_previous in
      message_next :: messages_from beta rest message_next
  end.

(** The pairs the loop runs over, by direction: [zip(coupling, field[:-1])]
    and [zip(coupling[::-1], field[-2::-1])], with the slices written as
    list operations. *)
Definition left_pairs (coupling field : list float) : list (float * float) :=
  combine coupling (removelast field).

Definition right_pairs (coupling field : list float) : list (float * float) :=
  combine (rev coupling) (rev (removelast field)).

(** One entry of the list [marginals] returns, from the two messages that
    reach the site and the field at the site. *)
Definition site_marginal (beta ml hh mr : float) : float :=
  let mu_up := ml * np_exp (beta * hh * of_int Bp.SU) * mr in
  let mu_dw :=
    (of_int 1 - ml) * np_exp (beta * hh * of_int Bp.SD) * (of_int 1 - mr) in
  mu_up / (mu_up + mu_dw).

(** The denominator of that entry. *)
Definition site_denominator (beta ml hh mr : float) : float :=
  let mu_up := ml * np_exp (beta * hh * of_int Bp.SU) * mr in
  let mu_dw :=
    (of_int 1 - ml) * np_exp (beta * hh * of_int Bp.SD) * (of_int 1 - mr) in
  mu_up + mu_dw.

(** The denominator of a message update, [tmp_up + tmp_dw]. *)
Definition message_denominator (beta jj hh mu_up : float) : float :=
  let tmp_up :=
    Bp._phi_interaction Bp.SU Bp.SU jj beta * Bp._phi_field Bp.SU hh beta
    * mu_up
    + Bp._phi_interaction Bp.SU Bp.SD jj beta * Bp._phi_field Bp.SD hh beta
      * (of_int 1 - mu_up) in
  let tmp_dw :=
    Bp._phi_interaction Bp.SD Bp.SU jj beta * Bp._phi_field Bp.SU hh beta
    * mu_up
    + Bp._phi_interaction Bp.SD Bp.SD jj beta * Bp._phi_field Bp.SD hh beta
      * (of_int 1 - mu_up) in
  tmp_up + tmp_dw.

End WithFloat.
End Derived.

(* ================================================================== *)
(** * The specification's wording *)

Module Spec.

(** ** The message update, over the reals *)

Section Reals.
Local Open Scope R_scope.

Definition pairwise (x1 x2 : Z) (J beta : R) : R :=
  exp (beta * J * IZR x1 * IZR x2).

Definition field (x : Z) (h beta : R) : R :=
  exp (beta * h * IZR x).

(** [P(+1) = mu_up] and [P(-1) = 1 - mu_up]. *)
Definition P (mu_up : R) (s : Z) : R :=
  if (s =? 1)%Z then mu_up else 1 - mu_up.

Definition spins : list Z := [1; -1]%Z.

(** The sum over the source spin [s], for the outgoing spin [s']. *)
Definition unnormalised (beta J h mu_up : R) (s' : Z) : R :=
  fold_right Rplus 0
    (map (fun s => pairwise s s' J beta * field s h beta * P mu_up s)
         spins).

Definition message_update (beta J h mu_up : R) : R :=
  let tmp_up := unnormalised beta J h mu_up 1 in
  let tmp_dw := unnormalised beta J h mu_up (-1) in
  tmp_up / (tmp_up + tmp_dw).

(** The marginal of a site from the two messages that reach it:
    [up = mu_left * exp(beta*h) * mu_right],
    [down = (1 - mu_left) * exp(-beta*h) * (1 - mu_right)], and
    [up / (up + down)]. *)
Definition marginal_combination (beta h mu_left mu_right : R) : R :=
  let up_mass := mu_left * exp (beta * h) * mu_right in
  let down_mass := (1 - mu_left) * exp (- (beta * h)) * (1 - mu_right) in
  up_mass / (up_mass + down_mass).

(** The single-spin Boltzmann marginal. *)
Definition boltzmann (beta h : R) : R := 1 / (1 + exp (-2 * beta * h)).
End Reals.

(** ** The chain propagator *)

Section Chain.
Context {F : Float64}.

(** [left]: [coupling[i]] with [field[i]], for [i = 0 .. N-2]. *)
Definition pairs_left (coupling fields : list float)
  : list (float * float) :=
  map (fun i => (nth i coupling (of_int 0), nth i fields (of_int 0)))
      (seq 0 (length fields - 1)).

(** [right]: [coupling[N-2-i]] with [field[N-1-i]], for [i = 0 .. N-2]. *)
Definition pairs_right (coupling fields : list float)
  : list (float * float) :=
  let N := length fields in
  map (fun i => (nth (N - 2 - i) coupling (of_int 0),
                 nth (N - 1 - i) fields (of_int 0)))
      (seq 0 (N - 1)).

(** The output sequence begins with the starting message, gets one
    update per pair, and is reversed for [right]. *)
Definition chain (beta : float) (coupling fields : list float)
    (message_start : float) (right : bool) : list float :=
  if right then
    rev (message_start
         :: Derived.messages_from beta (pairs_right coupling fields)
              message_start)
  else
    message_start
    :: Derived.messages_from beta (pairs_left coupling fields)
         message_start.
End Chain.

End Spec.

(* ================================================================== *)
(** * Relations between two runs of the code *)

Module Related.
Import Exact.
Local Open Scope R_scope.

(** The same message in both runs. *)
Definition same_message (x y : ieee) : Prop := is_message x /\ y = x.

(** A value of one run and [k] times it in the other. *)
Definition scaled (k : R) (x y : ieee) : Prop :=
  exists h, x = Fin h /\ y = Fin (k * h).

Definition scaled_pair (k : R) (p p' : ieee * ieee) : Prop :=
  scaled k (fst p) (fst p') /\ scaled k (snd p) (snd p').

End Related.

(* ================================================================== *)
(** * The numerators and denominators of the two normalisations *)

Module Parts.
Section WithFloat.

Context {F : Float64}.
Local Open Scope float_scope.

(** [tmp_up] and [tmp_dw] of [_propagate_message]. *)
Definition message_up (beta jj hh mu_up : float) : float :=
  Bp._phi_interaction Bp.SU Bp.SU jj beta * Bp._phi_field Bp.SU hh beta
  * mu_up
  + Bp._phi_interaction Bp.SU Bp.SD jj beta * Bp._phi_field Bp.SD hh beta
    * (of_int 1 - mu_up).

Definition message_dw (beta jj hh mu_up : float) : float :=
  Bp._phi_interaction Bp.SD Bp.SU jj beta * Bp._phi_field Bp.SU hh beta
  * mu_up
  + Bp._phi_interaction Bp.SD Bp.SD jj beta * Bp._phi_field Bp.SD hh beta
    * (of_int 1 - mu_up).



End WithFloat.
End Parts.

(* ================================================================== *)
(** * The formulas of the specification, in float arithmetic *)

Module FloatSpec.
Section WithFloat.

Context {F : Float64}.
Local Open Scope float_scope.

(** [pairwise(x1, x2, J, beta) = exp(beta*J*x1*x2)] *)
Definition pairwise (x1 x2 : Z) (J beta : float) : float :=
  np_exp (beta * J * of_int x1 * of_int x2).

(** [field(x, h, beta) = exp(beta*h*x)] *)
Definition field (x : Z) (h beta : float) : float :=
  np_exp (beta * h * of_int x).

(** [P(+1) = mu_up] and [P(-1) = 1 - mu_up]. *)
Definition P (mu_up : float) (s : Z) : float :=
  if (s =? 1)%Z then mu_up else of_int 1 - mu_up.

(** The source spin takes the values [+1] and [-1], in this order. *)
Definition spins : list Z := [1; -1]%Z.

(** The sum of the terms of a list, from its first term on. *)
Definition sum (terms : list float) : float :=
  match terms with
  | [] => of_int 0
  | t :: ts => fold_left fadd ts t
  end.

(** The sum over the source spin [s], for the outgoing spin [s']. *)
Definition unnormalised (beta J h mu_up : float) (s' : Z) : float :=
  sum (map (fun s => pairwise s s' J beta * field s h beta * P mu_up s)
           spins).

Definition message_update (beta J h mu_up : float) : float :=
  let tmp_up := unnormalised beta J h mu_up 1 in
  let tmp_dw := unnormalised beta J h mu_up (-1) in
  tmp_up / (tmp_up + tmp_dw).

(** The single-spin marginal [1 / (1 + exp(-2*beta*h))]. *)
Definition boltzmann (beta h : float) : float :=
  of_int 1 / (of_int 1 + np_exp (of_int (-2) * beta * h)).

End WithFloat.
End FloatSpec.

(* ================================================================== *)
(** * What an unchecked normalisation returns *)

Module Enclosure.
Import Exact.
Local Open Scope R_scope.



End Enclosure.
(* ================================================================== *)
(** * Slices as list operations *)

Module PyFacts.
Section Slices.
Context {A : Type}.
Implicit Types l : list A.
Local Open Scope Z_scope.

Lemma getitems_app l (i j : list Z) :
  getitems l (i ++ j) = getitems l i ++ getitems l j.
Proof.
  induction i as [|k i IH]; simpl; [reflexivity|].
  destruct (nth_error l (Z.to_nat k)); simpl; now rewrite IH.
Qed.

Lemma firstn_snoc l (n : nat) (x : A) :
  nth_error l n = Some x -> firstn (S n) l = firstn n l ++ [x].
Proof.
  revert n; induction l as [|a l IH]; intros [|n] H; simpl in *; try discriminate.
  - now inversion H.
  - now rewrite (IH _ H).
Qed.

Lemma getitems_upto l (n : nat) :
  getitems l (map Z.of_nat (seq 0 n)) = firstn n l.
Proof.
  induction n as [|n IH]; [reflexivity|].
  rewrite seq_S, map_app, getitems_app, IH; cbn [map getitems Nat.add].
  rewrite Nat2Z.id.
  destruct (nth_error l n) as [x|] eqn:E.
  - symmetry; now apply firstn_snoc.
  - apply nth_error_None in E.
    rewrite app_nil_r.
    rewrite (firstn_all2 (n:=n)), (firstn_all2 (n:=S n)) by lia. reflexivity.
Qed.

Lemma getitems_downfrom l (s : nat) :
  (s < length l)%nat ->
  getitems l (map (fun k => Z.of_nat s + Z.of_nat k * -1) (seq 0 (S s)))
  = rev (firstn (S s) l).
Proof.
  induction s as [|s IH]; intros Hs.
  - simpl. destruct l as [|a l]; [simpl in Hs; lia|reflexivity].
  - change (seq 0 (S (S s))) with (0%nat :: seq 1 (S s)).
    rewrite <- seq_shift, map_cons, map_map.
    cbn [getitems].
    replace (Z.to_nat (Z.of_nat (S s) + Z.of_nat 0 * -1)) with (S s) by lia.
    destruct (nth_error l (S s)) as [x|] eqn:E.
    2:{ apply nth_error_None in E; lia. }
    rewrite firstn_snoc with (x:=x) by exact E. rewrite rev_app_distr; cbn [rev app].
    f_equal. rewrite <- IH by lia.
    f_equal. apply map_ext; intros k; lia.
Qed.

Lemma slice_init l : slice l None (Some (-1)) 1 = removelast l.
Proof.
  unfold slice, slice_indices, clamp, len.
  rewrite removelast_firstn_len.
  destruct l as [|a l]; [reflexivity|].
  cbn [length Nat.pred].
  replace (-1 <? 0) with true by reflexivity.
  replace (1 <? 0) with false by reflexivity.
  destruct (Z.ltb_spec (-1 + Z.of_nat (S (length l))) 0); [lia|].
  destruct (Z.ltb_spec 0 (-1 + Z.of_nat (S (length l)))).
  - rewrite Z.div_1_r.
    replace (Z.to_nat (-1 + Z.of_nat (S (length l)) - 0 - 1 + 1)) with (length l) by lia.
    rewrite <- getitems_upto. f_equal. apply map_ext; intros; lia.
  - assert (length l = 0)%nat as -> by lia. reflexivity.
Qed.

Lemma slice_reversed l : slice l None None (-1) = rev l.
Proof.
  unfold slice, slice_indices, len.
  replace (-1 <? 0) with true by reflexivity.
  destruct l as [|a l]; [reflexivity|].
  destruct (Z.ltb_spec (-1) (Z.of_nat (length (a :: l)) - 1)); [|simpl length in *; lia].
  replace (- -1) with 1 by reflexivity. rewrite Z.div_1_r.
  simpl length.
  replace (Z.to_nat (Z.of_nat (S (length l)) - 1 - -1 - 1 + 1)) with (S (length l)) by lia.
  replace (Z.of_nat (S (length l)) - 1) with (Z.of_nat (length l)) by lia.
  rewrite (getitems_downfrom (a :: l) (s:=length l)) by (simpl; lia).
  now rewrite firstn_all2 by (simpl; lia).
Qed.

Lemma slice_from_m2_reversed l :
  slice l (Some (-2)) None (-1) = rev (removelast l).
Proof.
  unfold slice, slice_indices, clamp, len.
  rewrite removelast_firstn_len.
  replace (-1 <? 0) with true by reflexivity.
  replace (-2 <? 0) with true by reflexivity.
  destruct l as [|a [|b l]]; [reflexivity|reflexivity|].
  set (n := length l).
  replace (length (a :: b :: l)) with (S (S n)) by reflexivity.
  cbn [Nat.pred].
  destruct (Z.ltb_spec (-2 + Z.of_nat (S (S n))) 0); [lia|].
  destruct (Z.ltb_spec (-1) (-2 + Z.of_nat (S (S n)))); [|lia].
  replace (- -1) with 1 by reflexivity. rewrite Z.div_1_r.
  replace (Z.to_nat (-2 + Z.of_nat (S (S n)) - -1 - 1 + 1)) with (S n) by lia.
  replace (-2 + Z.of_nat (S (S n))) with (Z.of_nat n) by lia.
  apply getitems_downfrom. simpl; lia.
Qed.
End Slices.
End PyFacts.

(* ================================================================== *)
(** * The embedded code, for every float arithmetic *)

Module BpFacts.
Section WithFloat.

Context {F : Float64}.
Import Derived PyFacts.
Local Open Scope Z_scope.

Lemma chain_loop_messages beta l out prev :
  Bp.chain_loop beta l out prev = out ++ messages_from beta l prev.
Proof.
  revert out prev; induction l as [|[jj hh] l IH]; intros out prev; simpl.
  - now rewrite app_nil_r.
  - now rewrite IH, <- app_assoc.
Qed.

Lemma messages_from_length beta l m :
  length (messages_from beta l m) = length l.
Proof.
  revert m; induction l as [|[jj hh] l IH]; intros m; simpl; auto.
Qed.

Lemma shape_lengths (coupling field : list float) :
  len coupling = len field - 1 <-> length field = S (length coupling).
Proof. unfold len; lia. Qed.

Lemma chain_shape_error beta coupling field start direction :
  len coupling <> len field - 1 ->
  Bp._propagate_messages_chain beta coupling field start direction
  = Raise (ValueError "Length of coupling and of input non consistent").
Proof.
  intros H. unfold Bp._propagate_messages_chain.
  apply Z.eqb_neq in H. now rewrite H.
Qed.

Lemma chain_left beta coupling field start :
  len coupling = len field - 1 ->
  Bp._propagate_messages_chain beta coupling field start "left"
  = Ok (start :: messages_from beta (left_pairs coupling field) start).
Proof.
  intros H. unfold Bp._propagate_messages_chain.
  apply Z.eqb_eq in H. rewrite H.
  change (existsb (String.eqb "left") ["left"; "right"]%string) with true.
  change (String.eqb "left" "left") with true.
  change (String.eqb "left" "right") with false.
  cbn [negb bind].
  now rewrite chain_loop_messages, slice_init.
Qed.

Lemma chain_right beta coupling field start :
  len coupling = len field - 1 ->
  Bp._propagate_messages_chain beta coupling field start "right"
  = Ok (rev (start :: messages_from beta (right_pairs coupling field) start)).
Proof.
  intros H. unfold Bp._propagate_messages_chain.
  apply Z.eqb_eq in H. rewrite H.
  change (existsb (String.eqb "right") ["left"; "right"]%string) with true.
  change (String.eqb "right" "left") with false.
  change (String.eqb "right" "right") with true.
  cbn [negb bind].
  now rewrite chain_loop_messages, slice_reversed, slice_from_m2_reversed.
Qed.

(** Any other direction is refused, once the lengths agree. *)
Lemma chain_direction_error beta coupling field start direction :
  len coupling = len field - 1 ->
  direction <> "left"%string -> direction <> "right"%string ->
  Bp._propagate_messages_chain beta coupling field start direction
  = Raise (ValueError "wrong direction: must be left or rigth").
Proof.
  intros H Hl Hr. unfold Bp._propagate_messages_chain.
  apply Z.eqb_eq in H. rewrite H.
  apply String.eqb_neq in Hl, Hr.
  cbn [negb existsb]. now rewrite Hl, Hr.
Qed.

Lemma left_pairs_length coupling field :
  length field = S (length coupling) ->
  length (left_pairs coupling field) = length coupling.
Proof.
  intros H. unfold left_pairs.
  rewrite length_combine, removelast_firstn_len, length_firstn. lia.
Qed.

Lemma right_pairs_length coupling field :
  length field = S (length coupling) ->
  length (right_pairs coupling field) = length coupling.
Proof.
  intros H. unfold right_pairs.
  rewrite length_combine, !length_rev, removelast_firstn_len, length_firstn. lia.
Qed.

Lemma combine_app {A B} (a a' : list A) (b b' : list B) :
  length a = length b ->
  combine (a ++ a') (b ++ b') = combine a b ++ combine a' b'.
Proof.
  revert b; induction a as [|x a IH]; intros [|y b] H; simpl in *;
    try discriminate; [reflexivity|].
  f_equal. apply IH. congruence.
Qed.

Lemma combine_rev {A B} (a : list A) (b : list B) :
  length a = length b ->
  rev (combine a b) = combine (rev a) (rev b).
Proof.
  revert b; induction a as [|x a IH]; intros [|y b] H; simpl in *;
    try discriminate; [reflexivity|].
  rewrite combine_app by (rewrite !length_rev; congruence).
  rewrite IH by congruence. reflexivity.
Qed.

Lemma right_pairs_rev coupling field :
  length field = S (length coupling) ->
  right_pairs coupling field = rev (left_pairs coupling field).
Proof.
  intros H. unfold right_pairs, left_pairs.
  symmetry. apply combine_rev.
  rewrite removelast_firstn_len, length_firstn. lia.
Qed.

(** The list comprehensions of [marginals], site by site. *)
Lemma normalise_zip3 beta (a field c : list float) :
  map (fun '(mu_up, mu_dw) => (mu_up / (mu_up + mu_dw))%float)
      (zip
         (map (fun '(ml, lf, mr) => (ml * lf * mr)%float)
              (zip3 a (map (fun hh => np_exp (beta * hh * of_int Bp.SU)%float) field) c))
         (map (fun '(ml, lf, mr) => ((of_int 1 - ml) * lf * (of_int 1 - mr))%float)
              (zip3 a (map (fun hh => np_exp (beta * hh * of_int Bp.SD)%float) field) c)))
  = map (fun '(ml, hh, mr) => site_marginal beta ml hh mr) (zip3 a field c).
Proof.
  revert field c; induction a as [|x a IH]; intros [|h field] [|z c];
    try reflexivity.
  cbn [map zip3 zip combine]. f_equal. apply IH.
Qed.

Lemma zip3_length {A B C} (a : list A) (b : list B) (c : list C) n :
  length a = n -> length b = n -> length c = n -> length (zip3 a b c) = n.
Proof.
  revert b c n; induction a as [|x a IH]; intros [|y b] [|z c] [|n];
    simpl; intros; try congruence. f_equal. apply IH; congruence.
Qed.

Lemma marginals_ok beta coupling field :
  len coupling = len field - 1 ->
  Bp.marginals beta coupling field
  = Ok (map (fun '(ml, hh, mr) => site_marginal beta ml hh mr)
          (zip3 (half :: messages_from beta (left_pairs coupling field) half)
                field
                (rev (half :: messages_from beta (right_pairs coupling field) half)))).
Proof.
  intros H. unfold Bp.marginals, Bp.marginals_non.
  rewrite chain_left, chain_right by exact H.
  apply Z.eqb_eq in H. rewrite H. cbn [negb bind].
  now rewrite normalise_zip3.
Qed.

Lemma marginals_shape_error beta coupling field :
  len coupling <> len field - 1 ->
  Bp.marginals beta coupling field
  = Raise (ValueError "Length of coupling and of input non consistent").
Proof.
  intros H. unfold Bp.marginals. apply Z.eqb_neq in H. now rewrite H.
Qed.

(** Either direction returns one message per field; the starting message
    is the first one for [left] and the last one for [right]. *)
Lemma chain_left_shape beta coupling field start :
  len coupling = len field - 1 ->
  exists ms,
    Bp._propagate_messages_chain beta coupling field start "left" = Ok ms
    /\ length ms = length field
    /\ hd_error ms = Some start.
Proof.
  intros H. pose proof (proj1 (shape_lengths coupling field) H) as HN.
  eexists. split; [now apply chain_left|]. split; [|reflexivity].
  cbn [length]. rewrite messages_from_length, left_pairs_length; lia.
Qed.

Lemma chain_right_shape beta coupling field start :
  len coupling = len field - 1 ->
  exists ms,
    Bp._propagate_messages_chain beta coupling field start "right" = Ok ms
    /\ length ms = length field
    /\ hd_error (rev ms) = Some start.
Proof.
  intros H. pose proof (proj1 (shape_lengths coupling field) H) as HN.
  eexists. split; [now apply chain_right|]. split.
  - rewrite length_rev. cbn [length].
    rewrite messages_from_length, right_pairs_length; lia.
  - now rewrite rev_involutive.
Qed.

(** ** The pairs of the loop, by index *)

Lemma combine_by_index {A B} (a : list A) (b : list B) (da : A) (db : B) :
  length a = length b ->
  combine a b = map (fun i => (nth i a da, nth i b db)) (seq 0 (length a)).
Proof.
  revert b; induction a as [|x a IH]; intros [|y b] H; simpl in *;
    try discriminate; [reflexivity|].
  f_equal. rewrite <- seq_shift, map_map. apply IH. congruence.
Qed.

Lemma nth_removelast {A} (l : list A) (d : A) i :
  (i < length l - 1)%nat -> nth i (removelast l) d = nth i l d.
Proof.
  intros Hi. rewrite removelast_firstn_len.
  rewrite nth_firstn.
  destruct (Nat.ltb_spec i (Nat.pred (length l))); [reflexivity|lia].
Qed.

(** [left] pairs [coupling[i]] with [field[i]]. *)
Lemma left_pairs_by_index coupling field :
  length field = S (length coupling) ->
  left_pairs coupling field
  = map (fun i => (nth i coupling (of_int 0), nth i field (of_int 0)))
      (seq 0 (length field - 1)).
Proof.
  intros H. unfold left_pairs.
  rewrite combine_by_index with (da := of_int 0) (db := of_int 0)
    by (rewrite removelast_firstn_len, length_firstn; lia).
  replace (length field - 1)%nat with (length coupling) by lia.
  apply map_ext_in. intros i Hi. apply in_seq in Hi.
  f_equal. apply nth_removelast. lia.
Qed.

(** [right] pairs [coupling[N-2-i]] with [field[N-2-i]]. *)
Lemma right_pairs_by_index coupling field :
  length field = S (length coupling) ->
  right_pairs coupling field
  = map (fun i => (nth (length field - 2 - i) coupling (of_int 0),
                   nth (length field - 2 - i) field (of_int 0)))
      (seq 0 (length field - 1)).
Proof.
  intros H. unfold right_pairs.
  assert (length (removelast field) = length coupling) as Hr
    by (rewrite removelast_firstn_len, length_firstn; lia).
  rewrite combine_by_index with (da := of_int 0) (db := of_int 0)
    by (rewrite !length_rev; lia).
  rewrite length_rev.
  replace (length field - 1)%nat with (length coupling) by lia.
  apply map_ext_in. intros i Hi. apply in_seq in Hi.
  rewrite !rev_nth by lia. rewrite Hr.
  replace (length field - 2 - i)%nat with (length coupling - S i)%nat by lia.
  f_equal. apply nth_removelast. lia.
Qed.

(** The [left] direction is the propagator of the specification. *)
Lemma chain_left_meets_spec beta coupling field start :
  len coupling = len field - 1 ->
  Bp._propagate_messages_chain beta coupling field start "left"
  = Ok (Spec.chain beta coupling field start false).
Proof.
  intros H. rewrite chain_left by exact H.
  unfold Spec.chain, Spec.pairs_left.
  now rewrite left_pairs_by_index by (apply shape_lengths, H).
Qed.

End WithFloat.
End BpFacts.

(* ================================================================== *)
(** * The embedded code in exact arithmetic *)

Module ExactFacts.
Import Exact Derived.
Local Open Scope R_scope.

(** ** Arithmetic on finite values *)

Lemma div_Fin a b : b <> 0 -> div (Fin a) (Fin b) = Fin (a / b).
Proof. intros H. unfold div. now destruct (Req_EM_T b 0). Qed.

Lemma spins_pp x : x * 1 * 1 = x.
Proof. ring. Qed.
Lemma spins_pm x : x * 1 * -1 = - x.
Proof. ring. Qed.
Lemma spins_mp x : x * -1 * 1 = - x.
Proof. ring. Qed.
Lemma spins_mm x : x * -1 * -1 = x.
Proof. ring. Qed.
Lemma spin_p x : x * 1 = x.
Proof. ring. Qed.
Lemma spin_m x : x * -1 = - x.
Proof. ring. Qed.

Create Rewrite HintDb spins.
#[export] Hint Rewrite spins_pp spins_pm spins_mp spins_mm spin_p spin_m
  Ropp_involutive : spins.

(** Unfold a float expression on finite values down to the reals. *)
Ltac to_reals :=
  unfold Bp._propagate_message, site_marginal, message_denominator,
    site_denominator, Bp._phi_interaction, Bp._phi_field, Bp.SU, Bp.SD;
  cbn [fmul fadd fsub fdiv np_exp of_int half float64 mul add sub opp exp];
  autorewrite with spins.

(** Name the four exponentials of a message update and record that they
    are positive. *)
Ltac name_exps x :=
  let E := fresh "E" in
  let E' := fresh "E'" in
  let HE := fresh "HE" in
  let HE' := fresh "HE'" in
  let HEE := fresh "HEE" in
  pose proof (exp_pos x) as HE;
  pose proof (exp_pos (- x)) as HE';
  assert (Rtrigo_def.exp x * Rtrigo_def.exp (- x) = 1) as HEE
    by (rewrite <- exp_plus, Rplus_opp_r; apply exp_0);
  set (E := Rtrigo_def.exp x) in *;
  set (E' := Rtrigo_def.exp (- x)) in *;
  clearbody E E'.

Lemma ratio_bounds x y : 0 < x -> 0 < y -> 0 < x / (x + y) < 1.
Proof.
  intros Hx Hy. split.
  - apply Rdiv_lt_0_compat; lra.
  - apply Rmult_lt_reg_r with (x + y); [lra|].
    unfold Rdiv. rewrite Rmult_assoc, Rinv_l by lra. lra.
Qed.

Lemma message_denominator_pos b J h m :
  0 <= m <= 1 ->
  0 < (Rtrigo_def.exp (b * J) + Rtrigo_def.exp (- (b * J)))
      * (Rtrigo_def.exp (b * h) * m + Rtrigo_def.exp (- (b * h)) * (1 - m)).
Proof.
  intros Hm. name_exps (b * J). name_exps (b * h).
  apply Rmult_lt_0_compat; [lra|].
  destruct (Rle_lt_dec m (1 / 2)).
  - assert (0 <= E0 * m) by (apply Rmult_le_pos; lra).
    assert (0 < E'0 * (1 - m)) by (apply Rmult_lt_0_compat; lra). lra.
  - assert (0 < E0 * m) by (apply Rmult_lt_0_compat; lra).
    assert (0 <= E'0 * (1 - m)) by (apply Rmult_le_pos; lra). lra.
Qed.

Lemma propagate_message_Fin b J h m :
  0 <= m <= 1 ->
  Bp._propagate_message (Fin b) (Fin J) (Fin h) (Fin m)
  = Fin (Spec.message_update b J h m).
Proof.
  intros Hm.
  pose proof (message_denominator_pos b J h Hm) as Hpos.
  to_reals.
  rewrite div_Fin.
  - f_equal.
    unfold Spec.message_update, Spec.unnormalised, Spec.pairwise, Spec.field,
      Spec.P, Spec.spins.
    cbn [map fold_right Z.eqb Pos.eqb]. autorewrite with spins.
    f_equal; [ring | f_equal; ring].
  - match goal with |- ?d <> 0 =>
      replace d with
        ((Rtrigo_def.exp (b * J) + Rtrigo_def.exp (- (b * J)))
         * (Rtrigo_def.exp (b * h) * m + Rtrigo_def.exp (- (b * h)) * (1 - m)))
        by ring
    end.
    lra.
Qed.

(** ** One message update *)

Lemma unnormalised_pos b J h m s' :
  0 < m < 1 -> 0 < Spec.unnormalised b J h m s'.
Proof.
  intros Hm. unfold Spec.unnormalised, Spec.pairwise, Spec.field, Spec.P, Spec.spins.
  cbn [map fold_right Z.eqb Pos.eqb].
  assert (forall x y z, 0 < x -> 0 < y -> 0 < z -> 0 < x * y * z) as P3
    by (intros; repeat apply Rmult_lt_0_compat; assumption).
  pose proof (P3 _ _ m (exp_pos (b * J * 1 * IZR s')) (exp_pos (b * h * 1))).
  pose proof (P3 _ _ (1 - m) (exp_pos (b * J * -1 * IZR s')) (exp_pos (b * h * -1))).
  lra.
Qed.

Lemma message_update_bounds b J h m :
  0 < m < 1 -> 0 < Spec.message_update b J h m < 1.
Proof.
  intros Hm. unfold Spec.message_update.
  apply ratio_bounds; now apply unnormalised_pos.
Qed.

Lemma propagate_is_message b J h m :
  is_message m ->
  is_message (Bp._propagate_message (Fin b) (Fin J) (Fin h) m).
Proof.
  intros (r & -> & Hr). exists (Spec.message_update b J h r). split.
  - apply propagate_message_Fin; lra.
  - now apply message_update_bounds.
Qed.

Lemma message_update_zero_coupling b h m :
  0 <= m <= 1 -> Spec.message_update b 0 h m = 1 / 2.
Proof.
  intros Hm.
  pose proof (message_denominator_pos b 0 h Hm) as Hpos.
  unfold Spec.message_update, Spec.unnormalised, Spec.pairwise, Spec.field,
    Spec.P, Spec.spins.
  cbn [map fold_right Z.eqb Pos.eqb]. autorewrite with spins.
  rewrite Rmult_0_r, Ropp_0, exp_0 in *.
  name_exps (b * h). field. lra.
Qed.

Lemma message_update_zero_field b J :
  Spec.message_update b J 0 (1 / 2) = 1 / 2.
Proof.
  assert (0 <= 1 / 2 <= 1) as Hm by lra.
  pose proof (message_denominator_pos b J 0 Hm) as Hpos.
  unfold Spec.message_update, Spec.unnormalised, Spec.pairwise, Spec.field,
    Spec.P, Spec.spins.
  cbn [map fold_right Z.eqb Pos.eqb]. autorewrite with spins.
  rewrite Rmult_0_r, Ropp_0, exp_0 in *.
  name_exps (b * J). field. lra.
Qed.

(** ** The messages along the chain *)

Lemma messages_from_are_messages b l m :
  Forall finite_pair l -> is_message m ->
  Forall is_message (messages_from (Fin b) l m).
Proof.
  intros Hl; revert m; induction Hl as [|[jj hh] l [[J HJ] [h Hh]] _ IH];
    intros m Hm; [constructor|].
  cbn [fst snd] in HJ, Hh; subst jj hh.
  cbn [messages_from]; constructor.
  - now apply propagate_is_message.
  - apply IH. now apply propagate_is_message.
Qed.

Lemma messages_from_half b l :
  Forall neutral_pair l ->
  messages_from (Fin b) l (Fin (1 / 2)) = repeat (Fin (1 / 2)) (length l).
Proof.
  induction 1 as [|p l (J & h & -> & HJh) _ IH]; [reflexivity|].
  cbn [messages_from length repeat].
  rewrite propagate_message_Fin by lra.
  replace (Spec.message_update b J h (1 / 2)) with (1 / 2).
  - now rewrite IH.
  - destruct HJh as [-> | ->]; symmetry.
    + apply message_update_zero_coupling; lra.
    + apply message_update_zero_field.
Qed.

(** ** Lists of finite values *)

Lemma Forall_finite_map (l : list R) : Forall is_finite (map Fin l).
Proof. apply Forall_map, Forall_forall. intros x _. now exists x. Qed.

Lemma Forall_removelast {A} (P : A -> Prop) (l : list A) :
  Forall P l -> Forall P (removelast l).
Proof.
  induction 1 as [|x l Hx Hl IH]; [constructor|].
  destruct l as [|y l]; [constructor|].
  cbn [removelast]. constructor; assumption.
Qed.

Lemma Forall_combine {A B} (P : A -> Prop) (Q : B -> Prop) a b :
  Forall P a -> Forall Q b ->
  Forall (fun p => P (fst p) /\ Q (snd p)) (combine a b).
Proof.
  intros Ha; revert b; induction Ha as [|x a Hx _ IH]; intros b Hb;
    [constructor|].
  destruct Hb as [|y b Hy Hb]; [constructor|].
  cbn [combine]. constructor; [now split|now apply IH].
Qed.

Lemma left_pairs_finite (c f : list R) :
  Forall finite_pair (left_pairs (map Fin c) (map Fin f)).
Proof.
  apply Forall_combine;
    [|apply Forall_removelast]; apply Forall_finite_map.
Qed.

Lemma right_pairs_finite (c f : list R) :
  Forall finite_pair (right_pairs (map Fin c) (map Fin f)).
Proof.
  apply Forall_combine; apply Forall_rev;
    [|apply Forall_removelast]; apply Forall_finite_map.
Qed.


Lemma zip3_repeat {A B} (x : A) (l : list B) :
  zip3 (repeat x (length l)) l (repeat x (length l))
  = map (fun y => (x, y, x)) l.
Proof. induction l as [|y l IH]; [reflexivity|]. cbn. now rewrite IH. Qed.

(** ** One site of the marginal combination *)

Lemma site_denominator_pos b h ml mr :
  0 < ml < 1 -> 0 < mr < 1 ->
  0 < ml * Rtrigo_def.exp (b * h) * mr
  /\ 0 < (1 - ml) * Rtrigo_def.exp (- (b * h)) * (1 - mr).
Proof.
  intros Hl Hr. name_exps (b * h).
  split; repeat apply Rmult_lt_0_compat; lra.
Qed.

Lemma site_marginal_Fin b h ml mr :
  0 < ml < 1 -> 0 < mr < 1 ->
  site_marginal (Fin b) (Fin ml) (Fin h) (Fin mr)
  = Fin (Spec.marginal_combination b h ml mr)
  /\ 0 < Spec.marginal_combination b h ml mr < 1.
Proof.
  intros Hl Hr. destruct (site_denominator_pos b h Hl Hr) as [Hu Hd].
  split.
  - to_reals. rewrite div_Fin; [reflexivity|].
    unfold Rminus in *. lra.
  - unfold Spec.marginal_combination. now apply ratio_bounds.
Qed.

Lemma marginal_combination_half b h :
  Spec.marginal_combination b h (1 / 2) (1 / 2) = Spec.boltzmann b h.
Proof.
  unfold Spec.marginal_combination, Spec.boltzmann.
  replace (-2 * b * h) with (- (b * h) + - (b * h)) by ring.
  rewrite exp_plus. name_exps (b * h).
  assert (E' = / E) as -> by (apply Rmult_eq_reg_l with E; [rewrite Rinv_r|]; lra).
  field. repeat split; nra.
Qed.

Lemma marginal_combination_zero_field b ml :
  Spec.marginal_combination b 0 ml (1 / 2) = ml.
Proof.
  unfold Spec.marginal_combination.
  rewrite Rmult_0_r, Ropp_0, exp_0. field. lra.
Qed.

(** ** The whole chain *)

Lemma len_map_Fin (c f : list R) :
  len (map Fin c) = (len (map Fin f) - 1)%Z <-> length f = S (length c).
Proof. unfold len. rewrite !length_map. lia. Qed.

Lemma marginals_neutral b (c f : list R) :
  length f = S (length c) ->
  Forall neutral_pair (left_pairs (map Fin c) (map Fin f)) ->
  Bp.marginals (Fin b) (map Fin c) (map Fin f)
  = Ok (map (fun h => Fin (Spec.boltzmann b h)) f).
Proof.
  intros Hlen Hn.
  rewrite BpFacts.marginals_ok by now apply len_map_Fin.
  rewrite BpFacts.right_pairs_rev by (rewrite !length_map; exact Hlen).
  change (@half float64) with (Fin (1 / 2)).
  rewrite !messages_from_half by (try apply Forall_rev; exact Hn).
  rewrite length_rev.
  rewrite !(@BpFacts.left_pairs_length float64)
    by (rewrite !length_map; exact Hlen).
  rewrite !length_map.
  change (Fin (1 / 2) :: repeat (Fin (1 / 2)) (length c))
    with (repeat (Fin (1 / 2)) (S (length c))).
  rewrite rev_repeat.
  replace (S (length c)) with (length (map Fin f))
    by (rewrite length_map; exact Hlen).
  rewrite zip3_repeat, !map_map.
  apply f_equal, map_ext. intros h.
  assert (0 < 1 / 2 < 1) as Hh by lra.
  destruct (site_marginal_Fin b h Hh Hh) as [-> _].
  now rewrite marginal_combination_half.
Qed.

Lemma zero_fields_neutral (c f : list R) :
  Forall (fun h => h = 0) f ->
  Forall neutral_pair (left_pairs (map Fin c) (map Fin f)).
Proof.
  intros Hf.
  eapply Forall_impl;
    [|apply (@Forall_combine _ _ is_finite (fun x => x = Fin 0))].
  - intros [jj hh] [[J HJ] Hh]. cbn [fst snd] in *. subst.
    exists J, 0. split; [reflexivity|now right].
  - apply Forall_finite_map.
  - apply Forall_removelast, Forall_map. eapply Forall_impl; [|exact Hf].
    intros h ->. reflexivity.
Qed.

Lemma boltzmann_zero_field b : Spec.boltzmann b 0 = 1 / 2.
Proof.
  unfold Spec.boltzmann. rewrite Rmult_0_r, exp_0. field.
Qed.

(** ** A coupled pair of sites with a field on one of them *)

Lemma message_update_biased :
  Spec.message_update 1 1 1 (1 / 2) <> 1 / 2.
Proof.
  unfold Spec.message_update, Spec.unnormalised, Spec.pairwise, Spec.field,
    Spec.P, Spec.spins.
  cbn [map fold_right Z.eqb Pos.eqb]. autorewrite with spins.
  pose proof (exp_ineq1 1 R1_neq_R0) as H1.
  name_exps 1. intros H.
  assert (E * E * (1 / 2) + (E' * E' * (1 - 1 / 2) + 0) = 1) as H2.
  { apply Rmult_eq_reg_r with (/ 2); [|lra].
    set (tu := E * E * (1 / 2) + (E' * E' * (1 - 1 / 2) + 0)) in *.
    set (td := E' * E * (1 / 2) + (E * E' * (1 - 1 / 2) + 0)) in *.
    assert (td = 1) as Htd by (unfold td; nra).
    assert (0 < tu) by (unfold tu; nra).
    rewrite Htd in H.
    apply (f_equal (fun x => x * (tu + 1))) in H.
    unfold Rdiv in H. rewrite Rmult_assoc, Rinv_l in H by lra. lra. }
  nra.
Qed.

(** ** Two coupled sites *)

Lemma marginals_two_sites b J h0 h1 :
  let p := Spec.message_update b J h0 (1 / 2) in
  Bp.marginals (Fin b) [Fin J] [Fin h0; Fin h1]
  = Ok [Fin (Spec.marginal_combination b h0 (1 / 2) p);
        Fin (Spec.marginal_combination b h1 p (1 / 2))].
Proof.
  intros p.
  assert (0 < 1 / 2 < 1) as Hh by lra.
  pose proof (message_update_bounds b J h0 Hh) as Hp. fold p in Hp.
  rewrite BpFacts.marginals_ok by reflexivity.
  cbn [left_pairs right_pairs combine rev removelast app messages_from
       zip3 map].
  change (@half float64) with (Fin (1 / 2)).
  rewrite propagate_message_Fin by lra. fold p.
  destruct (site_marginal_Fin b h0 Hh Hp) as [-> _].
  destruct (site_marginal_Fin b h1 Hp Hh) as [-> _].
  reflexivity.
Qed.

(** ** Infinite arguments *)

Lemma scale_inf_pos a s : 0 < a -> scale_inf a s = Inf s.
Proof.
  intros H. unfold scale_inf.
  destruct (total_order_T a 0) as [[H'|H']|H']; [lra|lra|reflexivity].
Qed.

Lemma scale_inf_neg a s : a < 0 -> scale_inf a s = Inf (negb s).
Proof.
  intros H. unfold scale_inf.
  destruct (total_order_T a 0) as [[H'|H']|H']; [reflexivity|lra|lra].
Qed.

Lemma scale_inf_zero s : scale_inf 0 s = NaN.
Proof.
  unfold scale_inf.
  destruct (total_order_T 0 0) as [[H'|H']|H']; [lra|reflexivity|lra].
Qed.

(** Evaluate a float expression whose arguments are literals. *)
Ltac eval_ieee :=
  unfold Bp._propagate_message, site_marginal, message_denominator,
    site_denominator, Bp._phi_interaction, Bp._phi_field, Bp.SU, Bp.SD;
  repeat (cbn [fmul fadd fsub fdiv np_exp of_int half float64 mul add sub opp
               div exp xorb negb Bool.eqb];
          rewrite ?scale_inf_zero;
          rewrite ?scale_inf_pos by lra;
          rewrite ?scale_inf_neg by lra).


(** ** Every argument, finite or not *)











End ExactFacts.

(* ================================================================== *)
(** * The lists of [marginals], by their parts *)

Module PartsFacts.
Section WithFloat.

Context {F : Float64}.
Import Derived Parts.





End WithFloat.
End PartsFacts.

(* ================================================================== *)
(** * The embedded code on every argument, finite or not *)

Module RobustFacts.
Import Exact Derived Parts Enclosure ExactFacts.
Local Open Scope R_scope.

(** ** Laws of the arithmetic *)

Lemma mul_one x : mul x (Fin 1) = x.
Proof.
  destruct x as [r|s|]; cbn [mul]; [|now rewrite scale_inf_pos by lra|easy].
  f_equal. ring.
Qed.

Lemma mul_minus_one x : mul x (Fin (-1)) = opp x.
Proof.
  destruct x as [r|s|]; cbn [mul opp];
    [|now rewrite scale_inf_neg by lra|easy].
  f_equal. ring.
Qed.


(** Multiplying by the two spins, in either order. *)
Lemma spins_commute x :
  mul (mul x (Fin 1)) (Fin (-1)) = mul (mul x (Fin (-1))) (Fin 1).
Proof. now rewrite !mul_one, !mul_minus_one. Qed.



Lemma mul_nan_r x : mul x NaN = NaN.
Proof. now destruct x. Qed.

(** ** An unchecked normalisation *)


(** ** The two normalisations by their parts *)

Lemma propagate_message_parts beta jj hh mu :
  Bp._propagate_message beta jj hh mu
  = div (message_up beta jj hh mu)
        (add (message_up beta jj hh mu) (message_dw beta jj hh mu)).
Proof. reflexivity. Qed.





(** ** One update in normal form *)

(** With [K = beta*J] and [H = beta*h], the four interaction weights are
    [exp K] and [exp (-K)] and the two field weights [exp H] and
    [exp (-H)]. *)
Lemma message_up_normal beta jj hh mu :
  message_up beta jj hh mu
  = add (mul (mul (exp (mul beta jj)) (exp (mul beta hh))) mu)
        (mul (mul (exp (opp (mul beta jj))) (exp (opp (mul beta hh))))
             (sub (Fin 1) mu)).
Proof.
  unfold message_up, Bp._phi_interaction, Bp._phi_field, Bp.SU, Bp.SD.
  cbn [fmul fadd fsub fdiv np_exp of_int float64].
  now rewrite !mul_one, !mul_minus_one.
Qed.








(** ** Zero coupling, zero field *)

Lemma update_nan beta jj hh : Bp._propagate_message beta jj hh NaN = NaN.
Proof.
  rewrite propagate_message_parts, message_up_normal.
  now rewrite mul_nan_r.
Qed.







(** ** Along the chain *)






(** ** The whole chain *)



(** After a NaN message every message is NaN. *)
Lemma messages_from_nan beta l :
  Forall (fun m => m = NaN) (messages_from beta l NaN).
Proof.
  induction l as [|[jj hh] l IH]; [constructor|].
  cbn [messages_from]. rewrite update_nan. now constructor.
Qed.



(** ** Arguments that are not finite *)

Lemma marginals_minus_infinity :
  Bp.marginals_non (Inf true) [] [Fin 1] = Ok ([Fin 0], [Inf false])
  /\ Bp.marginals (Inf true) [] [Fin 1] = Ok [Fin 0].
Proof.
  assert (Bp.marginals_non (Inf true) [] [Fin 1] = Ok ([Fin 0], [Inf false]))
    as Hnon.
  { unfold Bp.marginals_non.
    rewrite BpFacts.chain_left, BpFacts.chain_right by reflexivity.
    cbn [left_pairs right_pairs combine rev removelast app messages_from
         zip3 map bind].
    eval_ieee. do 4 f_equal. ring. }
  split; [exact Hnon|].
  unfold Bp.marginals. rewrite Hnon. reflexivity.
Qed.


End RobustFacts.

(* ================================================================== *)
(** * [acvar], whatever the covariance routine *)

Module CommonFacts.
Section WithFloat.

Context {F : Float64}.
Variable np_cov_0_1 : list float -> list float -> result float.

(** When no call of the covariance routine raises, the loop appends one
    value per lag. *)
Lemma acvar_loop_length sample lags acv :
  (forall x y, exists c, np_cov_0_1 x y = Ok c) ->
  exists out,
    Common.acvar_loop np_cov_0_1 sample lags acv = Ok out
    /\ length out = (length acv + length lags)%nat.
Proof.
  intros Hcov. revert acv; induction lags as [|i lags IH]; intros acv.
  - exists acv. split; [reflexivity|simpl; lia].
  - cbn [Common.acvar_loop].
    destruct (Hcov (slice sample (Some i) None 1)
                   (slice sample None (Some (- i)%Z) 1)) as [c ->].
    cbn [bind]. destruct (IH (acv ++ [c])) as (out & -> & Hout).
    exists out. split; [reflexivity|].
    rewrite Hout, length_app. simpl. lia.
Qed.

(** [acvar] has no check of its own: it raises when the covariance routine
    raises on the whole sample. *)
Lemma acvar_first_call sample n_lags e :
  np_cov_0_1 sample sample = Raise e ->
  Common.acvar np_cov_0_1 sample n_lags = Raise e.
Proof. intros H. unfold Common.acvar. now rewrite H. Qed.

Lemma acvar_length sample n_lags :
  (forall x y, exists c, np_cov_0_1 x y = Ok c) ->
  exists out,
    Common.acvar np_cov_0_1 sample n_lags = Ok out
    /\ length out = S (Z.to_nat n_lags).
Proof.
  intros Hcov. unfold Common.acvar.
  destruct (Hcov sample sample) as [c ->]. cbn [bind app].
  destruct (acvar_loop_length sample
              (map Z.of_nat (seq 1 (Z.to_nat n_lags))) [c] Hcov)
    as (out & -> & Hout).
  exists out. split; [reflexivity|].
  rewrite Hout, length_map, length_seq. reflexivity.
Qed.

End WithFloat.
End CommonFacts.

(* ================================================================== *)
(** * The properties of the specification *)

Module Properties.
Import Exact Derived Parts Enclosure ExactFacts.
Local Open Scope R_scope.

(** C1. [_propagate_message] is the message update of the specification,
    [tmp_up / (tmp_up + tmp_dw)] with the two sums over the source spin of
    [pairwise(s, s') * field(s) * P(s)], for every [beta], [J], [h] and
    [mu_up].  The code passes the outgoing spin first to
    [_phi_interaction] and the specification the source spin: the two
    agree in every float arithmetic in which multiplying by [1.0] and by
    [-1.0] gives the same product in either order, as in binary64, where
    both products are the opposite of the number. *)
Theorem propagate_message_meets_spec (F : Float64)
    (beta J h mu_up : float) :
  (forall x : float,
     (x * of_int 1 * of_int (-1) = x * of_int (-1) * of_int 1)%float) ->
  Bp._propagate_message beta J h mu_up
  = FloatSpec.message_update beta J h mu_up.
Proof.
  intros Hspins.
  unfold Bp._propagate_message, FloatSpec.message_update,
    FloatSpec.unnormalised, FloatSpec.spins, FloatSpec.sum.
  cbn [map fold_left].
  unfold FloatSpec.pairwise, FloatSpec.field, FloatSpec.P,
    Bp._phi_interaction, Bp._phi_field, Bp.SU, Bp.SD.
  cbn [Z.eqb Pos.eqb].
  now rewrite (Hspins (beta * J)%float).
Qed.

Lemma propagate_message_meets_spec_witness :
  (forall x : ieee,
     mul (mul x (Fin 1)) (Fin (-1)) = mul (mul x (Fin (-1))) (Fin 1))
  /\ Bp._propagate_message (Fin 1) (Fin 2) (Inf false) (Fin (1 / 2))
     = FloatSpec.message_update (Fin 1) (Fin 2) (Inf false) (Fin (1 / 2)).
Proof.
  split; [exact RobustFacts.spins_commute|].
  apply (@propagate_message_meets_spec float64).
  exact RobustFacts.spins_commute.
Defined.







(** C4. [marginals] raises exactly when
    [len(couplings) != len(fields) - 1]; what it raises is the [ValueError]
    of the length check, a value that holds no float (no partial output),
    in every float arithmetic and for every [beta].  The boundary cases: an
    empty [fields], and one field with couplings. *)
Theorem shape_validation (F : Float64) (beta : float)
    (coupling field : list float) :
  (raises (Bp.marginals beta coupling field)
   <-> len coupling <> (len field - 1)%Z)
  /\ (len coupling <> (len field - 1)%Z ->
      Bp.marginals beta coupling field
      = Raise (ValueError "Length of coupling and of input non consistent"))
  /\ (field = [] -> raises (Bp.marginals beta coupling field))
  /\ (length field = 1%nat -> coupling <> [] ->
      raises (Bp.marginals beta coupling field)).
Proof.
  assert (len coupling <> (len field - 1)%Z ->
          raises (Bp.marginals beta coupling field)) as Hraise.
  { intros H. eexists. now apply BpFacts.marginals_shape_error. }
  split; [split; [|exact Hraise]|split; [|split]].
  - intros [e He] Heq.
    rewrite BpFacts.marginals_ok in He by exact Heq. discriminate.
  - apply BpFacts.marginals_shape_error.
  - intros ->. apply Hraise. unfold len. simpl. lia.
  - intros H1 Hc. apply Hraise. unfold len. rewrite H1.
    destruct coupling; [contradiction|simpl; lia].
Qed.

(** C5, at the input where the code leaves it.  For [right],
    [_propagate_messages_chain] pairs the coupling of an edge with the
    field at the left end of the edge ([coupling[N-2-i]] with
    [field[N-2-i]]), not with [field[N-1-i]]: on couplings [[1.0]] and
    fields [[0.0, 1.0]] it returns [[0.5, 0.5]], where the pairing of the
    specification gives a first message different from [0.5]. *)
Theorem right_chain_pairs_left_end_field :
  Bp._propagate_messages_chain (Fin 1) [Fin 1] [Fin 0; Fin 1] (Fin (1 / 2))
    "right"
  = Ok [Fin (1 / 2); Fin (1 / 2)]
  /\ Spec.chain (Fin 1) [Fin 1] [Fin 0; Fin 1] (Fin (1 / 2)) true
     = [Fin (Spec.message_update 1 1 1 (1 / 2)); Fin (1 / 2)]
  /\ Spec.message_update 1 1 1 (1 / 2) <> 1 / 2.
Proof.
  split; [|split].
  - rewrite BpFacts.chain_right by reflexivity.
    cbn [right_pairs combine rev removelast app messages_from].
    rewrite propagate_message_Fin by lra.
    now rewrite message_update_zero_field.
  - unfold Spec.chain, Spec.pairs_right.
    cbn [length Nat.sub seq map nth messages_from rev app].
    change (@of_int float64 0) with (Fin 0).
    now rewrite propagate_message_Fin by lra.
  - exact message_update_biased.
Qed.







(** C8. Length: whenever the lengths agree, [marginals] returns a list of
    [len(fields)] entries, in every float arithmetic. *)
Theorem marginals_length (F : Float64) (beta : float)
    (coupling field : list float) :
  len coupling = (len field - 1)%Z ->
  exists ms,
    Bp.marginals beta coupling field = Ok ms
    /\ length ms = length field.
Proof.
  intros Hlen.
  pose proof (proj1 (BpFacts.shape_lengths coupling field) Hlen) as HN.
  eexists. split; [now apply BpFacts.marginals_ok|].
  rewrite length_map. apply BpFacts.zip3_length.
  - cbn [length]. rewrite BpFacts.messages_from_length.
    rewrite BpFacts.left_pairs_length; lia.
  - reflexivity.
  - rewrite length_rev. cbn [length]. rewrite BpFacts.messages_from_length.
    rewrite BpFacts.right_pairs_length; lia.
Qed.

Lemma marginals_length_witness :
  len [Fin 2; NaN] = (len [Fin 3; Inf true; Fin 0] - 1)%Z
  /\ exists ms,
       Bp.marginals (Inf false) [Fin 2; NaN] [Fin 3; Inf true; Fin 0] = Ok ms
       /\ length ms = length [Fin 3; Inf true; Fin 0].
Proof.
  split; [reflexivity|].
  apply (marginals_length float64 (Inf false) [Fin 2; NaN]
           [Fin 3; Inf true; Fin 0]).
  reflexivity.
Defined.

(** C10, at the input where the code leaves it.  On couplings [[1.0]] and
    fields [[0.0, 1.0]], the marginals of the reversed chain are not the
    reversed marginals: the last entry of the former is the message
    [p <> 0.5] sent across the edge, the first entry of the latter is
    [0.5]. *)
Theorem marginals_not_mirror_symmetric :
  exists ms ms',
    Bp.marginals (Fin 1) [Fin 1] [Fin 0; Fin 1] = Ok ms
    /\ Bp.marginals (Fin 1) (rev [Fin 1]) (rev [Fin 0; Fin 1]) = Ok ms'
    /\ ms' <> rev ms.
Proof.
  eexists _, _. split; [apply marginals_two_sites|].
  split; [cbn [rev app]; apply marginals_two_sites|].
  cbn [rev app]. intros H. injection H as _ H.
  rewrite message_update_zero_field in H.
  rewrite marginal_combination_zero_field in H.
  rewrite marginal_combination_half, boltzmann_zero_field in H.
  now apply message_update_biased.
Qed.

End Properties.

(* ================================================================== *)
(** * More on slices *)

Module SliceFacts.
Section Slices.
Context {A : Type}.
Implicit Types l : list A.
Local Open Scope Z_scope.

Lemma getitems_shift l (s : nat) (ks : list nat) :
  getitems l (map (fun k => Z.of_nat s + Z.of_nat k * 1) ks)
  = getitems (skipn s l) (map Z.of_nat ks).
Proof.
  induction ks as [|k ks IH]; [reflexivity|].
  cbn [map getitems]. rewrite IH.
  replace (Z.to_nat (Z.of_nat s + Z.of_nat k * 1)) with (s + k)%nat by lia.
  now rewrite Nat2Z.id, nth_error_skipn.
Qed.

(** [l[j:]] drops the first [j] elements. *)
Lemma slice_from l (j : nat) :
  slice l (Some (Z.of_nat j)) None 1 = skipn j l.
Proof.
  unfold slice, slice_indices, clamp, len.
  replace (1 <? 0) with false by reflexivity.
  destruct (Z.ltb_spec (Z.of_nat j) 0); [lia|].
  destruct (Z.leb_spec (Z.of_nat (length l)) (Z.of_nat j)).
  - rewrite Z.ltb_irrefl. cbn [Z.to_nat seq map getitems].
    symmetry. apply skipn_all2. lia.
  - destruct (Z.ltb_spec (Z.of_nat j) (Z.of_nat (length l))); [|lia].
    rewrite Z.div_1_r.
    replace (Z.to_nat (Z.of_nat (length l) - Z.of_nat j - 1 + 1))
      with (length l - j)%nat by lia.
    rewrite getitems_shift, PyFacts.getitems_upto.
    apply firstn_all2. rewrite length_skipn. lia.
Qed.

(** [l[:-j]], for [j >= 1], drops the last [j] elements. *)
Lemma slice_to_minus l (j : nat) :
  (1 <= j)%nat ->
  slice l None (Some (- Z.of_nat j)) 1 = firstn (length l - j) l.
Proof.
  intros Hj. unfold slice, slice_indices, clamp, len.
  replace (1 <? 0) with false by reflexivity.
  destruct (Z.ltb_spec (- Z.of_nat j) 0); [|lia].
  destruct (Z.ltb_spec (- Z.of_nat j + Z.of_nat (length l)) 0).
  - rewrite Z.ltb_irrefl. cbn [Z.to_nat seq map getitems].
    replace (length l - j)%nat with 0%nat by lia. reflexivity.
  - destruct (Z.ltb_spec 0 (- Z.of_nat j + Z.of_nat (length l))).
    + rewrite Z.div_1_r.
      replace (Z.to_nat (- Z.of_nat j + Z.of_nat (length l) - 0 - 1 + 1))
        with (length l - j)%nat by lia.
      rewrite <- PyFacts.getitems_upto. f_equal.
      apply map_ext; intros; lia.
    + replace (length l - j)%nat with 0%nat by lia. reflexivity.
Qed.

End Slices.
End SliceFacts.

(* ================================================================== *)
(** * The propagator, message by message *)

Module ChainFacts.
Section WithFloat.

Context {F : Float64}.
Import Derived.
Local Open Scope Z_scope.

(** Each message after the first is the update of its predecessor with the
    pair of its step. *)
Lemma messages_from_step beta l start (d : float) (k : nat) :
  (k < length l)%nat ->
  nth (S k) (start :: messages_from beta l start) d
  = Bp._propagate_message beta (fst (nth k l (d, d))) (snd (nth k l (d, d)))
      (nth k (start :: messages_from beta l start) d).
Proof.
  revert start k; induction l as [|[jj hh] l IH]; intros start k Hk;
    cbn [length] in Hk; [lia|].
  destruct k as [|k]; [reflexivity|].
  cbn [messages_from].
  set (m := Bp._propagate_message beta jj hh start).
  change (nth (S (S k)) (start :: m :: messages_from beta l m) d)
    with (nth (S k) (m :: messages_from beta l m) d).
  change (nth (S k) (start :: m :: messages_from beta l m) d)
    with (nth k (m :: messages_from beta l m) d).
  change (nth (S k) ((jj, hh) :: l) (d, d)) with (nth k l (d, d)).
  apply IH. lia.
Qed.

Lemma left_pairs_nth coupling field (d : float) (k : nat) :
  length field = S (length coupling) ->
  (k < length coupling)%nat ->
  nth k (left_pairs coupling field) (d, d)
  = (nth k coupling d, nth k field d).
Proof.
  intros H Hk. unfold left_pairs.
  rewrite combine_nth
    by (rewrite removelast_firstn_len, length_firstn; lia).
  f_equal. apply BpFacts.nth_removelast. lia.
Qed.

Lemma right_pairs_nth coupling field (d : float) (k : nat) :
  length field = S (length coupling) ->
  (k < length coupling)%nat ->
  nth k (right_pairs coupling field) (d, d)
  = (nth (length coupling - S k) coupling d,
     nth (length coupling - S k) field d).
Proof.
  intros H Hk.
  rewrite BpFacts.right_pairs_rev by exact H.
  rewrite rev_nth by (rewrite BpFacts.left_pairs_length; lia).
  rewrite BpFacts.left_pairs_length by exact H.
  apply left_pairs_nth; [exact H|lia].
Qed.

(** The pairs of [left] do not read the last field. *)
Lemma left_pairs_last coupling field h :
  left_pairs coupling (field ++ [h]) = combine coupling field.
Proof. unfold left_pairs. now rewrite removelast_last. Qed.

Lemma right_pairs_last coupling field h :
  right_pairs coupling (field ++ [h]) = combine (rev coupling) (rev field).
Proof. unfold right_pairs. now rewrite removelast_last. Qed.

Lemma zip3_app {A B C} (a a' : list A) (b b' : list B) (c c' : list C) :
  length a = length b -> length b = length c ->
  zip3 (a ++ a') (b ++ b') (c ++ c') = zip3 a b c ++ zip3 a' b' c'.
Proof.
  revert b c; induction a as [|x a IH]; intros [|y b] [|z c] H1 H2;
    cbn [length] in *; try discriminate; [reflexivity|].
  cbn [app zip3]. f_equal. apply IH; congruence.
Qed.

Lemma split_last {A} (l : list A) (n : nat) :
  length l = S n -> exists l0 x, l = l0 ++ [x] /\ length l0 = n.
Proof.
  intros H. destruct (exists_last (l := l)) as (l0 & x & ->).
  - intros ->. discriminate.
  - exists l0, x. split; [reflexivity|].
    rewrite length_app in H. cbn [length] in H. lia.
Qed.

End WithFloat.
End ChainFacts.

(* ================================================================== *)
(** * Two runs of the code, side by side *)

Module RelatedFacts.

Lemma Forall2_reverse {A} (R : A -> A -> Prop) l l' :
  Forall2 R l l' -> Forall2 R (rev l) (rev l').
Proof.
  induction 1 as [|x x' l l' Hx _ IH]; [constructor|].
  cbn [rev]. apply Forall2_app; [exact IH|]. now constructor.
Qed.

Section WithFloat.

Context {F : Float64}.
Import Derived.

Variables (Rm Ro Rh : float -> float -> Prop).
Variable Rp : float * float -> float * float -> Prop.
Variables beta beta' : float.

Hypothesis update_related : forall p p' m m',
  Rp p p' -> Rm m m' ->
  Rm (Bp._propagate_message beta (fst p) (snd p) m)
     (Bp._propagate_message beta' (fst p') (snd p') m').

Hypothesis site_related : forall ml ml' h h' mr mr',
  Rm ml ml' -> Rh h h' -> Rm mr mr' ->
  Ro (site_marginal beta ml h mr) (site_marginal beta' ml' h' mr').

Hypothesis start_related : Rm half half.

Lemma messages_from_related l l' :
  Forall2 Rp l l' ->
  forall m m', Rm m m' ->
  Forall2 Rm (messages_from beta l m) (messages_from beta' l' m').
Proof.
  induction 1 as [|[jj hh] [jj' hh'] l l' Hp _ IH]; intros m m' Hm;
    cbn [messages_from]; constructor.
  - apply (update_related Hp Hm).
  - apply IH. apply (update_related Hp Hm).
Qed.

Lemma zip3_Forall2 {A B C} (RA : A -> A -> Prop) (RB : B -> B -> Prop)
    (RC : C -> C -> Prop) a a' b b' c c' :
  Forall2 RA a a' -> Forall2 RB b b' -> Forall2 RC c c' ->
  Forall2 (fun t t' => RA (fst (fst t)) (fst (fst t'))
                       /\ RB (snd (fst t)) (snd (fst t'))
                       /\ RC (snd t) (snd t'))
          (zip3 a b c) (zip3 a' b' c').
Proof.
  intros Ha; revert b b' c c'.
  induction Ha as [|x x' a a' Hx _ IH]; intros b b' c c' Hb Hc;
    [constructor|].
  destruct Hb as [|y y' b b' Hy Hb]; [constructor|].
  destruct Hc as [|z z' c c' Hz Hc]; [constructor|].
  cbn [zip3]. constructor; [cbn; tauto|now apply IH].
Qed.

Lemma Forall2_map_both {A B} (R : B -> B -> Prop) (g g' : A -> B) l l'
    (RA : A -> A -> Prop) :
  (forall x x', RA x x' -> R (g x) (g' x')) ->
  Forall2 RA l l' -> Forall2 R (map g l) (map g' l').
Proof.
  intros Hg. induction 1; cbn [map]; constructor; auto.
Qed.

Lemma marginals_related coupling coupling' field field' :
  length field = S (length coupling) ->
  length field' = S (length coupling') ->
  Forall2 Rp (left_pairs coupling field) (left_pairs coupling' field') ->
  Forall2 Rh field field' ->
  exists ms ms',
    Bp.marginals beta coupling field = Ok ms
    /\ Bp.marginals beta' coupling' field' = Ok ms'
    /\ Forall2 Ro ms ms'.
Proof.
  intros HN HN' Hp Hh.
  rewrite !BpFacts.marginals_ok by now apply BpFacts.shape_lengths.
  eexists _, _. split; [reflexivity|]. split; [reflexivity|].
  rewrite !BpFacts.right_pairs_rev by assumption.
  eapply Forall2_map_both;
    [|apply (@zip3_Forall2 _ _ _ Rm Rh Rm)].
  - intros [[ml h] mr] [[ml' h'] mr'] (Hl & Hf & Hr). cbn [fst snd] in *.
    now apply site_related.
  - constructor; [exact start_related|].
    now apply messages_from_related.
  - exact Hh.
  - apply Forall2_reverse. constructor; [exact start_related|].
    apply messages_from_related; [|exact start_related].
    now apply Forall2_reverse.
Qed.

End WithFloat.

Lemma Forall2_removelast {A} (R : A -> A -> Prop) l l' :
  Forall2 R l l' -> Forall2 R (removelast l) (removelast l').
Proof.
  induction 1 as [|x x' l l' Hx Hl IH]; [constructor|].
  destruct Hl as [|y y' l l' Hy Hl]; [constructor|].
  cbn [removelast] in *. constructor; assumption.
Qed.

Lemma Forall2_combine {A B} (RA : A -> A -> Prop) (RB : B -> B -> Prop)
    a a' b b' :
  Forall2 RA a a' -> Forall2 RB b b' ->
  Forall2 (fun p p' => RA (fst p) (fst p') /\ RB (snd p) (snd p'))
          (combine a b) (combine a' b').
Proof.
  intros Ha; revert b b'. induction Ha as [|x x' a a' Hx _ IH];
    intros b b' Hb; [constructor|].
  destruct Hb as [|y y' b b' Hy Hb]; [constructor|].
  cbn [combine]. constructor; [now split|now apply IH].
Qed.

Lemma Forall2_maps {A B} (R : B -> B -> Prop) (g g' : A -> B) l :
  (forall x, R (g x) (g' x)) -> Forall2 R (map g l) (map g' l).
Proof. intros Hg. induction l; cbn [map]; constructor; auto. Qed.

End RelatedFacts.

(* ================================================================== *)
(** * Symmetries of the code in exact arithmetic *)

Module SymmetryFacts.
Import Exact Derived ExactFacts Related.
Local Open Scope R_scope.

(** ** Over the reals *)

Lemma message_update_scaled k b J h r :
  Spec.message_update (k * b) J h r = Spec.message_update b (k * J) (k * h) r.
Proof.
  unfold Spec.message_update, Spec.unnormalised, Spec.pairwise, Spec.field,
    Spec.spins. cbn [map fold_right].
  replace (b * (k * J)) with (k * b * J) by ring.
  replace (b * (k * h)) with (k * b * h) by ring.
  reflexivity.
Qed.

Lemma marginal_combination_scaled k b h ml mr :
  Spec.marginal_combination (k * b) h ml mr
  = Spec.marginal_combination b (k * h) ml mr.
Proof.
  unfold Spec.marginal_combination.
  replace (b * (k * h)) with (k * b * h) by ring. reflexivity.
Qed.

(** ** On the embedded code *)

Lemma update_scaled k b p p' m m' :
  scaled_pair k p p' -> same_message m m' ->
  same_message (Bp._propagate_message (Fin (k * b)) (fst p) (snd p) m)
               (Bp._propagate_message (Fin b) (fst p') (snd p') m').
Proof.
  destruct p as [jj hh], p' as [jj' hh'].
  intros [(J & HJ & HJ') (h & Hh & Hh')] [(r & -> & Hr) ->].
  cbn [fst snd] in *. subst. split.
  - now apply propagate_is_message; exists r.
  - rewrite !propagate_message_Fin by lra.
    now rewrite message_update_scaled.
Qed.

Lemma site_scaled k b ml ml' h h' mr mr' :
  same_message ml ml' -> scaled k h h' -> same_message mr mr' ->
  site_marginal (Fin (k * b)) ml h mr = site_marginal (Fin b) ml' h' mr'.
Proof.
  intros [(l & -> & Hl) ->] (x & -> & ->) [(r & -> & Hr) ->].
  destruct (site_marginal_Fin (k * b) x Hl Hr) as [-> _].
  destruct (site_marginal_Fin b (k * x) Hl Hr) as [-> _].
  now rewrite marginal_combination_scaled.
Qed.

Lemma half_same : same_message (@half float64) (@half float64).
Proof.
  split; [|reflexivity]. exists (1 / 2). split; [reflexivity|lra].
Qed.

Lemma left_pairs_scaled k (c f : list R) :
  Forall2 (scaled_pair k)
    (left_pairs (map Fin c) (map Fin f))
    (left_pairs (map Fin (map (Rmult k) c)) (map Fin (map (Rmult k) f))).
Proof.
  unfold left_pairs. rewrite !map_map.
  apply (@RelatedFacts.Forall2_combine _ _ (scaled k) (scaled k)).
  - apply RelatedFacts.Forall2_maps. intros J. now exists J.
  - apply RelatedFacts.Forall2_removelast, RelatedFacts.Forall2_maps.
    intros h. now exists h.
Qed.

(** ** The whole chain *)

Lemma marginals_scaled k b (c f : list R) :
  Bp.marginals (Fin (k * b)) (map Fin c) (map Fin f)
  = Bp.marginals (Fin b) (map Fin (map (Rmult k) c))
      (map Fin (map (Rmult k) f)).
Proof.
  destruct (Z.eq_dec (len (map Fin c)) (len (map Fin f) - 1)) as [H|H].
  - apply len_map_Fin in H.
    destruct (@RelatedFacts.marginals_related float64
                same_message eq (scaled k) (scaled_pair k)
                (Fin (k * b)) (Fin b)
                (@update_scaled k b) (@site_scaled k b) half_same
                (map Fin c) (map Fin (map (Rmult k) c))
                (map Fin f) (map Fin (map (Rmult k) f)))
      as (ms & ms' & -> & -> & Hms).
    + rewrite !length_map. exact H.
    + rewrite !length_map. exact H.
    + apply left_pairs_scaled.
    + rewrite map_map. apply RelatedFacts.Forall2_maps.
      intros h. now exists h.
    + f_equal. clear -Hms. induction Hms; congruence.
  - rewrite !BpFacts.marginals_shape_error; [reflexivity| |exact H].
    unfold len in *. rewrite !length_map in *. exact H.
Qed.

Lemma marginals_beta_zero (c f : list R) :
  length f = S (length c) ->
  Bp.marginals (Fin 0) (map Fin c) (map Fin f)
  = Ok (repeat (Fin (1 / 2)) (length f)).
Proof.
  intros H.
  replace (Fin 0) with (Fin (0 * 1)) by (f_equal; ring).
  rewrite marginals_scaled.
  rewrite marginals_neutral.
  - f_equal. rewrite map_map. clear H.
    induction f as [|h f IH]; [reflexivity|].
    cbn [map length repeat]. rewrite IH. f_equal. f_equal.
    rewrite Rmult_0_l. apply boltzmann_zero_field.
  - rewrite !length_map. exact H.
  - apply zero_fields_neutral. apply Forall_map, Forall_forall.
    intros h _. ring.
Qed.

End SymmetryFacts.

(* ================================================================== *)
(** * [acvar], lag by lag *)

Module AcvarFacts.
Section WithFloat.

Context {F : Float64}.
Variable np_cov_0_1 : list float -> list float -> result float.

(** The call of lag [i]: the sample without its first [i] values against
    the sample without its last [i] values. *)
Lemma acvar_loop_step sample (i : nat) lags acv :
  (1 <= i)%nat ->
  Common.acvar_loop np_cov_0_1 sample (Z.of_nat i :: lags) acv
  = bind (np_cov_0_1 (skipn i sample) (firstn (length sample - i) sample))
         (fun c => Common.acvar_loop np_cov_0_1 sample lags (acv ++ [c])).
Proof.
  intros Hi. cbn [Common.acvar_loop].
  now rewrite SliceFacts.slice_from, SliceFacts.slice_to_minus.
Qed.

End WithFloat.

Section Total.

Context {F : Float64}.
Variable cov : list float -> list float -> float.

Lemma acvar_loop_total sample (a n : nat) acv :
  (1 <= a)%nat ->
  Common.acvar_loop (fun x y => Ok (cov x y)) sample
    (map Z.of_nat (seq a n)) acv
  = Ok (acv ++ map (fun i => cov (skipn i sample)
                                 (firstn (length sample - i) sample))
                   (seq a n)).
Proof.
  revert a acv; induction n as [|n IH]; intros a acv Ha; cbn [seq map].
  - now rewrite app_nil_r.
  - rewrite acvar_loop_step by exact Ha. cbn [bind].
    rewrite IH by lia. now rewrite <- app_assoc.
Qed.

End Total.
End AcvarFacts.

(* ================================================================== *)
(** * Further properties of the code *)

Module Extras.
Import Exact Derived Enclosure ExactFacts.
Local Open Scope R_scope.

(** ** [_propagate_messages_chain], in every float arithmetic *)

(** The propagator checks the lengths first and the direction second.
    When the lengths differ it raises the length error whatever the
    direction is; when they agree, any direction other than ["left"] and
    ["right"] raises the direction error; otherwise it returns one message
    per field.  The branch that leaves [j_h_list] unbound is never taken. *)
Theorem chain_errors (F : Float64) (beta : float)
    (coupling field : list float) (start : float) (direction : string) :
  (len coupling <> (len field - 1)%Z ->
   Bp._propagate_messages_chain beta coupling field start direction
   = Raise (ValueError "Length of coupling and of input non consistent"))
  /\ (len coupling = (len field - 1)%Z ->
      direction <> "left"%string -> direction <> "right"%string ->
      Bp._propagate_messages_chain beta coupling field start direction
      = Raise (ValueError "wrong direction: must be left or rigth"))
  /\ (len coupling = (len field - 1)%Z ->
      direction = "left"%string \/ direction = "right"%string ->
      exists ms,
        Bp._propagate_messages_chain beta coupling field start direction
        = Ok ms
        /\ length ms = length field).
Proof.
  split; [apply BpFacts.chain_shape_error|].
  split; [apply BpFacts.chain_direction_error|].
  intros H [-> | ->].
  - destruct (BpFacts.chain_left_shape beta coupling field start H)
      as (ms & E & L & _). now exists ms.
  - destruct (BpFacts.chain_right_shape beta coupling field start H)
      as (ms & E & L & _). now exists ms.
Qed.

(** [left]: the first message is the starting message and message [i+1]
    is the update of message [i] with [coupling[i]] and [field[i]]. *)
Theorem left_chain_recurrence (F : Float64) (beta : float)
    (coupling field : list float) (start d : float) :
  len coupling = (len field - 1)%Z ->
  exists ms,
    Bp._propagate_messages_chain beta coupling field start "left" = Ok ms
    /\ length ms = length field
    /\ nth 0 ms d = start
    /\ forall i, (i < length coupling)%nat ->
         nth (S i) ms d
         = Bp._propagate_message beta (nth i coupling d) (nth i field d)
             (nth i ms d).
Proof.
  intros H. pose proof (proj1 (BpFacts.shape_lengths coupling field) H) as HN.
  eexists. split; [now apply BpFacts.chain_left|].
  split; [|split; [reflexivity|]].
  - cbn [length].
    rewrite BpFacts.messages_from_length, BpFacts.left_pairs_length; lia.
  - intros i Hi.
    rewrite ChainFacts.messages_from_step
      by (rewrite BpFacts.left_pairs_length; lia).
    now rewrite ChainFacts.left_pairs_nth by assumption.
Qed.

Lemma left_chain_recurrence_witness :
  len [Fin 2] = (len [Fin 3; Fin 4] - 1)%Z
  /\ exists ms,
       Bp._propagate_messages_chain (Fin 1) [Fin 2] [Fin 3; Fin 4]
         (Fin (1 / 2)) "left" = Ok ms
       /\ length ms = length [Fin 3; Fin 4]
       /\ nth 0 ms NaN = Fin (1 / 2)
       /\ forall i, (i < length [Fin 2])%nat ->
            nth (S i) ms NaN
            = Bp._propagate_message (Fin 1) (nth i [Fin 2] NaN)
                (nth i [Fin 3; Fin 4] NaN) (nth i ms NaN).
Proof.
  split; [reflexivity|].
  apply (@left_chain_recurrence float64 (Fin 1) [Fin 2] [Fin 3; Fin 4]
           (Fin (1 / 2)) NaN).
  reflexivity.
Defined.

(** [right], as the code has it: the last message is the starting message
    and message [i] is the update of message [i+1] with [coupling[i]] and
    [field[i]], the field at the left end of edge [i]. *)
Theorem right_chain_recurrence (F : Float64) (beta : float)
    (coupling field : list float) (start d : float) :
  len coupling = (len field - 1)%Z ->
  exists ms,
    Bp._propagate_messages_chain beta coupling field start "right" = Ok ms
    /\ length ms = length field
    /\ nth (length field - 1) ms d = start
    /\ forall i, (i < length coupling)%nat ->
         nth i ms d
         = Bp._propagate_message beta (nth i coupling d) (nth i field d)
             (nth (S i) ms d).
Proof.
  intros H. pose proof (proj1 (BpFacts.shape_lengths coupling field) H) as HN.
  set (fwd := start :: messages_from beta (right_pairs coupling field) start).
  assert (length fwd = S (length coupling)) as Hfwd.
  { unfold fwd. cbn [length].
    rewrite BpFacts.messages_from_length, BpFacts.right_pairs_length; lia. }
  exists (rev fwd). split; [now apply BpFacts.chain_right|].
  split; [rewrite length_rev; lia|]. split.
  - rewrite rev_nth by lia.
    replace (length fwd - S (length field - 1))%nat with 0%nat by lia.
    reflexivity.
  - intros i Hi. rewrite !rev_nth by lia.
    replace (length fwd - S i)%nat with (S (length coupling - S i)) by lia.
    replace (length fwd - S (S i))%nat with (length coupling - S i)%nat by lia.
    unfold fwd. rewrite ChainFacts.messages_from_step
      by (rewrite BpFacts.right_pairs_length; lia).
    rewrite ChainFacts.right_pairs_nth by (assumption || lia).
    cbn [fst snd].
    replace (length coupling - S (length coupling - S i))%nat with i by lia.
    reflexivity.
Qed.

Lemma right_chain_recurrence_witness :
  len [Fin 2] = (len [Fin 3; Fin 4] - 1)%Z
  /\ exists ms,
       Bp._propagate_messages_chain (Fin 1) [Fin 2] [Fin 3; Fin 4]
         (Fin (1 / 2)) "right" = Ok ms
       /\ length ms = length [Fin 3; Fin 4]
       /\ nth (length [Fin 3; Fin 4] - 1) ms NaN = Fin (1 / 2)
       /\ forall i, (i < length [Fin 2])%nat ->
            nth i ms NaN
            = Bp._propagate_message (Fin 1) (nth i [Fin 2] NaN)
                (nth i [Fin 3; Fin 4] NaN) (nth (S i) ms NaN).
Proof.
  split; [reflexivity|].
  apply (@right_chain_recurrence float64 (Fin 1) [Fin 2] [Fin 3; Fin 4]
           (Fin (1 / 2)) NaN).
  reflexivity.
Defined.

(** The [right] pass is the [left] pass over the reversed couplings and the
    reversed fields without the last one (any field [x] may stand in the
    unread last place), read backwards. *)
Theorem right_is_reversed_left (F : Float64) (beta : float)
    (coupling field : list float) (start x : float) :
  len coupling = (len field - 1)%Z ->
  Bp._propagate_messages_chain beta coupling field start "right"
  = bind (Bp._propagate_messages_chain beta (rev coupling)
            (rev (removelast field) ++ [x]) start "left")
         (fun ms => Ok (rev ms)).
Proof.
  intros H. pose proof (proj1 (BpFacts.shape_lengths coupling field) H) as HN.
  rewrite BpFacts.chain_right by exact H.
  rewrite BpFacts.chain_left.
  - cbn [bind]. now rewrite ChainFacts.left_pairs_last.
  - apply BpFacts.shape_lengths.
    rewrite length_app, !length_rev, removelast_firstn_len, length_firstn.
    cbn [length]. lia.
Qed.

Lemma right_is_reversed_left_witness :
  len [Fin 2; Fin 5] = (len [Fin 3; Fin 4; Fin 6] - 1)%Z
  /\ Bp._propagate_messages_chain (Fin 1) [Fin 2; Fin 5]
       [Fin 3; Fin 4; Fin 6] (Fin (1 / 2)) "right"
     = bind (Bp._propagate_messages_chain (Fin 1) (rev [Fin 2; Fin 5])
               (rev (removelast [Fin 3; Fin 4; Fin 6]) ++ [NaN])
               (Fin (1 / 2)) "left")
            (fun ms => Ok (rev ms)).
Proof.
  split; [reflexivity|].
  apply (@right_is_reversed_left float64 (Fin 1) [Fin 2; Fin 5]
           [Fin 3; Fin 4; Fin 6] (Fin (1 / 2)) NaN).
  reflexivity.
Defined.

(** ** [marginals], in every float arithmetic *)

(** Neither pass reads the last field: changing the field of the last site
    changes no entry of [marginals] but the last one. *)
Theorem last_field_local (F : Float64) (beta : float)
    (coupling field : list float) (h h' : float) :
  len coupling = len field ->
  exists ms m m',
    Bp.marginals beta coupling (field ++ [h]) = Ok (ms ++ [m])
    /\ Bp.marginals beta coupling (field ++ [h']) = Ok (ms ++ [m'])
    /\ length ms = length field.
Proof.
  intros H.
  assert (length coupling = length field) as HN by (unfold len in H; lia).
  assert (forall k, len coupling = (len (field ++ [k]) - 1)%Z) as Hk
    by (intros k; unfold len; rewrite length_app; cbn [length]; lia).
  rewrite !BpFacts.marginals_ok by apply Hk.
  rewrite !ChainFacts.left_pairs_last, !ChainFacts.right_pairs_last.
  set (L := half :: messages_from beta (combine coupling field) half).
  set (R := rev (half :: messages_from beta
                           (combine (rev coupling) (rev field)) half)).
  assert (length L = S (length field)) as HL.
  { unfold L. cbn [length].
    rewrite BpFacts.messages_from_length, length_combine. lia. }
  assert (length R = S (length field)) as HR.
  { unfold R. rewrite length_rev. cbn [length].
    rewrite BpFacts.messages_from_length, length_combine, !length_rev. lia. }
  destruct (ChainFacts.split_last L HL) as (L0 & l & -> & HL0).
  destruct (ChainFacts.split_last R HR) as (R0 & r & -> & HR0).
  rewrite !ChainFacts.zip3_app by congruence.
  rewrite !map_app. cbn [zip3 map].
  eexists _, _, _. split; [reflexivity|]. split; [reflexivity|].
  rewrite length_map. apply BpFacts.zip3_length; congruence.
Qed.

Lemma last_field_local_witness :
  len [Fin 2] = len [Fin 3]
  /\ exists ms m m',
       Bp.marginals (Fin 1) [Fin 2] ([Fin 3] ++ [Fin 4]) = Ok (ms ++ [m])
       /\ Bp.marginals (Fin 1) [Fin 2] ([Fin 3] ++ [Fin 7]) = Ok (ms ++ [m'])
       /\ length ms = length [Fin 3].
Proof.
  split; [reflexivity|].
  apply (@last_field_local float64 (Fin 1) [Fin 2] [Fin 3] (Fin 4) (Fin 7)).
  reflexivity.
Defined.

(** ** [_propagate_message], on IEEE values *)





(** ** [_propagate_messages_chain], on IEEE values *)



(** A NaN message is never repaired: started from NaN, both passes return
    NaN at every site, whatever [beta], the couplings and the fields are. *)
Theorem nan_message_spreads (beta : ieee) (coupling field : list ieee)
    (direction : string) :
  len coupling = (len field - 1)%Z ->
  direction = "left"%string \/ direction = "right"%string ->
  exists ms,
    Bp._propagate_messages_chain beta coupling field NaN direction = Ok ms
    /\ length ms = length field
    /\ Forall (fun m => m = NaN) ms.
Proof.
  intros H [-> | ->];
    pose proof (proj1 (BpFacts.shape_lengths coupling field) H) as HN.
  - eexists. split; [now apply (@BpFacts.chain_left float64)|]. split.
    + cbn [length]. rewrite (@BpFacts.messages_from_length float64).
      rewrite (@BpFacts.left_pairs_length float64) by exact HN.
      change (@float float64) with ieee in *. lia.
    + constructor; [reflexivity|apply RobustFacts.messages_from_nan].
  - eexists. split; [now apply (@BpFacts.chain_right float64)|]. split.
    + rewrite length_rev. cbn [length].
      rewrite (@BpFacts.messages_from_length float64).
      rewrite (@BpFacts.right_pairs_length float64) by exact HN.
      change (@float float64) with ieee in *. lia.
    + apply Forall_rev.
      constructor; [reflexivity|apply RobustFacts.messages_from_nan].
Qed.

Lemma nan_message_spreads_witness :
  len [Fin 2; Fin 0] = (len [Fin 1; Fin 0; Inf true] - 1)%Z
  /\ ("left"%string = "left"%string \/ "left"%string = "right"%string)
  /\ exists ms,
       Bp._propagate_messages_chain (Fin 0) [Fin 2; Fin 0]
         [Fin 1; Fin 0; Inf true] NaN "left" = Ok ms
       /\ length ms = length [Fin 1; Fin 0; Inf true]
       /\ Forall (fun m => m = NaN) ms.
Proof.
  split; [reflexivity|]. split; [now left|].
  apply nan_message_spreads; [reflexivity|now left].
Defined.

(** ** [marginals], on IEEE values *)





(** At [beta = 0] every potential is 1: every entry is [0.5], whatever the
    real couplings and fields. *)
Theorem infinite_temperature (coupling field : list R) :
  len coupling = (len field - 1)%Z ->
  Bp.marginals (Fin 0) (map Fin coupling) (map Fin field)
  = Ok (repeat (Fin (1 / 2)) (length field)).
Proof.
  intros H. apply SymmetryFacts.marginals_beta_zero.
  unfold len in H. lia.
Qed.

Lemma infinite_temperature_witness :
  len [2; -7]%R = (len [3; 0; 5]%R - 1)%Z
  /\ Bp.marginals (Fin 0) (map Fin [2; -7]) (map Fin [3; 0; 5])
     = Ok (repeat (Fin (1 / 2)) (length [3; 0; 5]%R)).
Proof.
  split; [reflexivity|]. apply infinite_temperature. reflexivity.
Defined.

(** ** [acvar], whatever the covariance routine *)

(** When the covariance routine returns on every pair of lists, [acvar]
    returns its values for the lags [0 .. n_lags] in order: lag [i] is the
    covariance of the sample without its first [i] values and the sample
    without its last [i] values, two lists of the same length.  [acvar]
    itself refuses no sample, not even an empty one. *)
Theorem acvar_lags (F : Float64) (cov : list float -> list float -> float)
    (sample : list float) (n_lags : Z) :
  Common.acvar (fun x y => Ok (cov x y)) sample n_lags
  = Ok (map (fun i => cov (skipn i sample)
                          (firstn (length sample - i) sample))
            (seq 0 (S (Z.to_nat n_lags))))
  /\ forall i : nat,
       length (skipn i sample) = length (firstn (length sample - i) sample).
Proof.
  split.
  - unfold Common.acvar. cbn [bind app].
    rewrite AcvarFacts.acvar_loop_total by lia.
    cbn [seq map app skipn]. now rewrite Nat.sub_0_r, firstn_all.
  - intros i. rewrite length_skipn, length_firstn. lia.
Qed.

End Extras.
